(** * The enhanced system orchestrator: dependency resolution, process
      supervision, restart policies and the control loops.

    Shallow embedding of [core/system_orchestrator_enhanced.py]
    (class [EnhancedSystemOrchestrator]).  The registry [self.components] is a
    finite map from names to component descriptions; the running-instance
    dictionary [self.processes] is kept as an insertion-ordered association
    list, because [stop_all] depends on the order of its keys.  Everything the
    orchestrator observes of the outside (the file system, [subprocess.Popen],
    [poll], [terminate], [wait], [kill], sockets, HTTP) is read from a [World],
    indexed by a logical clock that advances at every such call. *)

From stdpp Require Import gmap strings list fin_maps sorting.

(** ** Data model *)

(** One entry of [self.components].  A field that the source reads with
    [component.get(key, default)] holds the value that call returns:
    [dependencies] defaults to the empty list, [critical] and [optional] to
    [False], [restart_policy] to ['manual'], [startup_delay] to [0].  The keys
    ['port'] and ['health_endpoint'] are tested for presence, hence options. *)
Record Component := mkComponent {
  script : string;
  port : option Z;
  health_endpoint : option string;
  dependencies : list string;
  critical : bool;
  restart_policy : string;
  startup_delay : Z;
  optional : bool
}.

(** One value of [self.processes]: the [Popen] handle, the start time, the
    restart counter and the component description it was started from. *)
Record ProcessInfo := mkProcessInfo {
  process : nat;
  start_time : nat;
  restart_count : nat;
  component_info : Component
}.

(** What [process.wait(timeout=10)] can do. *)
Inductive WaitResult := Reaped | TimeoutExpired | WaitRaised.

(** The outside of the orchestrator.  [set_iter] is the iteration order of the
    Python [set] built from a collection of names (the language leaves it
    unspecified); [path_exists] is [Path.exists] on a launch target, taken not
    to change during a run; the other fields take the logical time of the
    call.  [popen] is [None] when [subprocess.Popen] raises; [poll] is [None]
    while the process runs and [Some rc] once it has exited; [terminate],
    [kill] and [wait] are [false] when the call raises; [connect_ex] and
    [http_get] are [None] when the call raises. *)
Record World := mkWorld {
  set_iter : gset string → list string;
  path_exists : string → bool;
  popen : nat → string → option nat;
  poll : nat → nat → option Z;
  terminate : nat → nat → bool;
  wait_timeout : nat → nat → WaitResult;
  kill : nat → nat → bool;
  wait : nat → nat → bool;
  connect_ex : nat → Z → option Z;
  http_get : nat → Z → string → option Z
}.

(** The lines the orchestrator writes to its logger and to standard output,
    one constructor per message that the claims below refer to. *)
Inductive LogEntry :=
  | OptionalNotFound (name : string)
  | CircularOrMissing (remaining : list string)
  | StartupOrder (order : list string)
  | StartingStep (i n : nat) (name : string)
  | CriticalFailedToStart (name : string)
  | AbortingStartup
  | FailedToStartList (failed : list string)
  | StartupCompleted
  | AlreadyRunning (name : string)
  | UnknownComponent (name : string)
  | ScriptNotFound (name : string)
  | DependencyNotRunning (dep name : string)
  | DependencyHasStopped (dep name : string)
  | DependenciesNotMet (name : string)
  | StartingComponent (name : string)
  | StartedSuccessfully (name : string) (pid : nat)
  | FailedToStart (name : string)
  | ErrorStarting (name : string)
  | NotRunning (name : string)
  | StoppingComponent (name : string)
  | ForceKilling (name : string)
  | Stopped (name : string)
  | ErrorStopping (name : string)
  | Restarting (name : string)
  | HealthCheckFailed (name : string)
  | AutoRestartAlways (name : string)
  | AutoRestartOnFailure (name : string) (attempt : nat)
  | ExceededRestartLimit (name : string)
  | CriticalAlert (critical_failed : list string)
  | MonitorError.

Global Instance LogEntry_eq_dec : EqDecision LogEntry.
Proof. solve_decision. Defined.

(** The orchestrator object: the registry, the running instances in insertion
    order, the [running] flag, the logical clock and what was logged so far. *)
Record Orchestrator := mkOrchestrator {
  components : gmap string Component;
  processes : list (string * ProcessInfo);
  running : bool;
  clock : nat;
  log : list LogEntry
}.

Definition set_processes (ps : list (string * ProcessInfo)) (o : Orchestrator) : Orchestrator :=
  mkOrchestrator (components o) ps (running o) (clock o) (log o).

Definition set_running (b : bool) (o : Orchestrator) : Orchestrator :=
  mkOrchestrator (components o) (processes o) b (clock o) (log o).

(** One interaction with the outside: the clock advances. *)
Definition tick (o : Orchestrator) : Orchestrator :=
  mkOrchestrator (components o) (processes o) (running o) (S (clock o)) (log o).

Definition emit (e : LogEntry) (o : Orchestrator) : Orchestrator :=
  mkOrchestrator (components o) (processes o) (running o) (clock o) (log o ++ [e]).

Definition emits (es : list LogEntry) (o : Orchestrator) : Orchestrator :=
  mkOrchestrator (components o) (processes o) (running o) (clock o) (log o ++ es).

(** ** The dictionary [self.processes] *)

Module Dict.

Definition keys {V} (d : list (string * V)) : list string := d.*1.

(** [d.get(k)] *)
Fixpoint get {V} (k : string) (d : list (string * V)) : option V :=
  match d with
  | [] => None
  | (k', v) :: d' => if decide (k = k') then Some v else get k d'
  end.

(** [k in d] *)
Definition mem {V} (k : string) (d : list (string * V)) : bool :=
  match get k d with Some _ => true | None => false end.

(** [d[k] = v]: a present key keeps its position, a new key goes last. *)
Fixpoint set {V} (k : string) (v : V) (d : list (string * V)) : list (string * V) :=
  match d with
  | [] => [(k, v)]
  | (k', v') :: d' => if decide (k = k') then (k, v) :: d' else (k', v') :: set k v d'
  end.

(** [del d[k]] *)
Definition del {V} (k : string) (d : list (string * V)) : list (string * V) :=
  filter (λ kv, kv.1 ≠ k) d.

End Dict.

(** ** Dependency resolution: [get_startup_order] *)

(** [self.components[name].get('dependencies', [])]; the names this is
    applied to are keys of the registry. *)
Definition deps_of (comps : gmap string Component) (name : string) : list string :=
  match comps !! name with Some c => dependencies c | None => [] end.

(** [self.components[x].get('startup_delay', 0)], the sort key. *)
Definition delay_of (comps : gmap string Component) (name : string) : Z :=
  match comps !! name with Some c => startup_delay c | None => 0%Z end.

(** An optional component whose script does not exist. *)
Definition is_excluded (w : World) (c : Component) : bool :=
  optional c && negb (path_exists w (script c)).

Definition excluded_name (w : World) (comps : gmap string Component) (name : string) : bool :=
  match comps !! name with Some c => is_excluded w c | None => false end.

(** [all(dep in ordered or dep not in remaining for dep in deps)] *)
Definition is_ready (comps : gmap string Component) (ordered remaining : list string)
    (name : string) : bool :=
  forallb (λ dep, bool_decide (dep ∈ ordered) || negb (bool_decide (dep ∈ remaining)))
          (deps_of comps name).

(** [ready.sort(key=startup_delay)]: Python's sort is stable, so it yields the
    list that insertion in front of the first element with a key at least as
    large yields. *)
Fixpoint insert_by_delay (comps : gmap string Component) (x : string) (l : list string)
    : list string :=
  match l with
  | [] => [x]
  | y :: l' =>
      if (delay_of comps x <=? delay_of comps y)%Z then x :: y :: l'
      else y :: insert_by_delay comps x l'
  end.

Fixpoint sort_by_delay (comps : gmap string Component) (l : list string) : list string :=
  match l with
  | [] => []
  | x :: l' => insert_by_delay comps x (sort_by_delay comps l')
  end.

(** The components found ready in one pass over [remaining]. *)
Definition ready_components (comps : gmap string Component) (ordered remaining : list string)
    : list string :=
  filter (λ name, is_ready comps ordered remaining name) remaining.

(** The [while remaining:] loop.  [remaining] is the set in its iteration
    order; removing names from the set leaves the others in the order they
    had.  The result is [ordered] together with the set that was logged as
    unresolved when the loop left through [break]; [None] only when [fuel]
    passes of the loop were not enough. *)
Fixpoint startup_loop (comps : gmap string Component) (fuel : nat)
    (ordered remaining : list string) : option (list string * option (list string)) :=
  match remaining with
  | [] => Some (ordered, None)
  | _ :: _ =>
      match fuel with
      | 0 => None
      | S fuel' =>
          match ready_components comps ordered remaining with
          | [] => Some (ordered, Some remaining)
          | r :: rs =>
              let ready := sort_by_delay comps (r :: rs) in
              startup_loop comps fuel' (ordered ++ ready) (list_difference remaining ready)
          end
      end
  end.

(** The set [remaining] after the optional components without a script were
    removed from it. *)
Definition active_components (w : World) (comps : gmap string Component) : list string :=
  filter (λ name, negb (excluded_name w comps name)) (set_iter w (dom comps)).

Definition removed_optionals (w : World) (comps : gmap string Component) : list string :=
  filter (λ name, excluded_name w comps name) (set_iter w (dom comps)).

Definition resolve (w : World) (comps : gmap string Component)
    : option (list string * option (list string)) :=
  let remaining := active_components w comps in
  startup_loop comps (length remaining) [] remaining.

(** [get_startup_order]: the order and the orchestrator with the lines logged.
    [resolve] always returns within its fuel, so the last branch is never
    taken. *)
Definition get_startup_order (w : World) (o : Orchestrator) : list string * Orchestrator :=
  let o1 := emits (OptionalNotFound <$> removed_optionals w (components o)) o in
  match resolve w (components o) with
  | Some (ordered, Some unresolved) => (ordered, emit (CircularOrMissing unresolved) o1)
  | Some (ordered, None) => (ordered, o1)
  | None => ([], o1)
  end.

(** ** Process supervision *)

(** The loop of [check_component_dependencies] over the dependency list: every
    dependency has to be a key of [self.processes] and its process has to be
    running when polled. *)
Fixpoint check_dependencies (w : World) (name : string) (deps : list string)
    (o : Orchestrator) : bool * Orchestrator :=
  match deps with
  | [] => (true, o)
  | dep :: rest =>
      match Dict.get dep (processes o) with
      | None => (false, emit (DependencyNotRunning dep name) o)
      | Some info =>
          match poll w (clock o) (process info) with
          | Some _ => (false, emit (DependencyHasStopped dep name) (tick o))
          | None => check_dependencies w name rest (tick o)
          end
      end
  end.

Definition check_component_dependencies (w : World) (name : string) (o : Orchestrator)
    : bool * Orchestrator :=
  check_dependencies w name (deps_of (components o) name) o.

(** [start_component]: the returned boolean is the method's result. *)
Definition start_component (w : World) (name : string) (o : Orchestrator)
    : bool * Orchestrator :=
  if Dict.mem name (processes o) then (true, emit (AlreadyRunning name) o)
  else
    match components o !! name with
    | None => (false, emit (UnknownComponent name) o)
    | Some component =>
        if negb (path_exists w (script component)) then
          if optional component then (true, emit (OptionalNotFound name) o)
          else (false, emit (ScriptNotFound name) o)
        else
          let (deps_ok, o1) := check_component_dependencies w name o in
          if negb deps_ok then (false, emit (DependenciesNotMet name) o1)
          else
            let o2 := emit (StartingComponent name) o1 in
            match popen w (clock o2) (script component) with
            | None => (false, emit (ErrorStarting name) (tick o2))
            | Some proc =>
                let info := mkProcessInfo proc (clock o2) 0 component in
                let o3 := set_processes (Dict.set name info (processes o2)) (tick o2) in
                match poll w (clock o3) proc with
                | None => (true, emit (StartedSuccessfully name proc) (tick o3))
                | Some _ =>
                    (false, emit (FailedToStart name)
                              (set_processes (Dict.del name (processes o3)) (tick o3)))
                end
            end
    end.

(** [stop_component]: [terminate], then [wait(timeout=10)], then on a timeout
    [kill] and [wait]; the entry is deleted after these returned, and any
    exception other than the timeout leaves through the handler that logs and
    returns [False]. *)
Definition stop_component (w : World) (name : string) (o : Orchestrator)
    : bool * Orchestrator :=
  match Dict.get name (processes o) with
  | None => (true, emit (NotRunning name) o)
  | Some info =>
      let p := process info in
      let o1 := emit (StoppingComponent name) o in
      if negb (terminate w (clock o1) p) then (false, emit (ErrorStopping name) (tick o1))
      else
        let o2 := tick o1 in
        match wait_timeout w (clock o2) p with
        | Reaped =>
            (true, emit (Stopped name)
                     (set_processes (Dict.del name (processes o2)) (tick o2)))
        | WaitRaised => (false, emit (ErrorStopping name) (tick o2))
        | TimeoutExpired =>
            let o3 := emit (ForceKilling name) (tick o2) in
            if negb (kill w (clock o3) p) then (false, emit (ErrorStopping name) (tick o3))
            else
              let o4 := tick o3 in
              if negb (wait w (clock o4) p) then (false, emit (ErrorStopping name) (tick o4))
              else
                (true, emit (Stopped name)
                         (set_processes (Dict.del name (processes o4)) (tick o4)))
        end
  end.

(** [check_component_health]: liveness, then the port, then the endpoint. *)
Definition check_component_health (w : World) (name : string) (o : Orchestrator)
    : bool * Orchestrator :=
  match Dict.get name (processes o) with
  | None => (false, o)
  | Some info =>
      let component := component_info info in
      match poll w (clock o) (process info) with
      | Some _ => (false, tick o)
      | None =>
          let o1 := tick o in
          match port component with
          | None => (true, o1)
          | Some pt =>
              match connect_ex w (clock o1) pt with
              | Some 0%Z =>
                  let o2 := tick o1 in
                  match health_endpoint component with
                  | None => (true, o2)
                  | Some path =>
                      match http_get w (clock o2) pt path with
                      | Some 200%Z => (true, tick o2)
                      | _ => (false, tick o2)
                      end
                  end
              | _ => (false, tick o1)
              end
          end
      end
  end.

(** The increment at the head of [restart_component]. *)
Definition increment_restart_count (name : string) (ps : list (string * ProcessInfo))
    : list (string * ProcessInfo) :=
  match Dict.get name ps with
  | Some info =>
      Dict.set name
        (mkProcessInfo (process info) (start_time info) (restart_count info + 1)
                       (component_info info)) ps
  | None => ps
  end.

(** [restart_component]: increment, [stop_component], [start_component]; the
    results of both calls are dropped. *)
Definition restart_component (w : World) (name : string) (o : Orchestrator) : Orchestrator :=
  let o1 := emit (Restarting name) o in
  let o2 := set_processes (increment_restart_count name (processes o1)) o1 in
  (start_component w name (stop_component w name o2).2).2.

(** ** Control loops *)

(** How the [for] loop of [start_all] ends: it ran through with the list of
    failed components, it returned [False] at a critical failure, or
    [self.components[component_name]] raised [KeyError]. *)
Inductive StartLoopResult :=
  | LoopDone (failed : list string)
  | LoopAborted
  | LoopKeyError.

Fixpoint start_loop (w : World) (total i : nat) (order failed : list string)
    (o : Orchestrator) : StartLoopResult * Orchestrator :=
  match order with
  | [] => (LoopDone failed, o)
  | name :: rest =>
      match components o !! name with
      | None => (LoopKeyError, o)
      | Some component =>
          let (ok, o1) := start_component w name (emit (StartingStep i total name) o) in
          if ok then start_loop w total (S i) rest failed o1
          else if critical component then
            (LoopAborted, emit AbortingStartup (emit (CriticalFailedToStart name) o1))
          else start_loop w total (S i) rest (failed ++ [name]) o1
      end
  end.

(** [start_all]; [None] stands for the [KeyError].  The status table printed at
    the end only reads the state and is left out. *)
Definition start_all (w : World) (o : Orchestrator) : option bool * Orchestrator :=
  let (startup_order, o1) := get_startup_order w o in
  let o2 := emit (StartupOrder startup_order) o1 in
  match start_loop w (length startup_order) 1 startup_order [] o2 with
  | (LoopKeyError, o3) => (None, o3)
  | (LoopAborted, o3) => (Some false, o3)
  | (LoopDone failed, o3) =>
      let o4 := match failed with [] => o3 | _ :: _ => emit (FailedToStartList failed) o3 end in
      (Some (bool_decide (length failed = 0)), emit StartupCompleted o4)
  end.

(** [stop_all]: the keys of [self.processes], reversed, each handed to
    [stop_component]. *)
Definition stop_all (w : World) (o : Orchestrator) : Orchestrator :=
  foldl (λ o' name, (stop_component w name o').2) o (reverse (Dict.keys (processes o))).

(** The body of the [for] loop of [monitor_loop] over the snapshot of the
    keys.  [None] stands for the [KeyError] of [self.processes[component_name]],
    which the handler of the loop catches. *)
Fixpoint monitor_components (w : World) (names failed : list string) (o : Orchestrator)
    : option (list string) * Orchestrator :=
  match names with
  | [] => (Some failed, o)
  | name :: rest =>
      let (healthy, o1) := check_component_health w name o in
      if healthy then monitor_components w rest failed o1
      else
        match Dict.get name (processes o1) with
        | None => (None, o1)
        | Some info =>
            let policy := restart_policy (component_info info) in
            let o2 := emit (HealthCheckFailed name) o1 in
            if decide (policy = "always") then
              monitor_components w rest failed
                (restart_component w name (emit (AutoRestartAlways name) o2))
            else if decide (policy = "on_failure") then
              let count :=
                match Dict.get name (processes o2) with
                | Some i => restart_count i
                | None => 0
                end in
              if decide (count < 3) then
                monitor_components w rest failed
                  (restart_component w name (emit (AutoRestartOnFailure name (count + 1)) o2))
              else
                monitor_components w rest (failed ++ [name])
                  (emit (ExceededRestartLimit name) o2)
            else monitor_components w rest (failed ++ [name]) o2
        end
  end.

(** [self.components[c].get('critical', False)] for the alert. *)
Definition is_critical (comps : gmap string Component) (name : string) : bool :=
  match comps !! name with Some c => critical c | None => false end.

(** One pass of the [while self.running:] loop: the failed list of the pass
    and the state after it.  [None] is a pass that ended in the handler of
    the loop: through the [KeyError] above or through the one of
    [self.components[c]] in the list of critical failures. *)
Definition monitor_iteration (w : World) (o : Orchestrator)
    : option (list string) * Orchestrator :=
  match monitor_components w (Dict.keys (processes o)) [] o with
  | (None, o1) => (None, emit MonitorError o1)
  | (Some failed, o1) =>
      if forallb (λ c, bool_decide (is_Some (components o !! c))) failed then
        let critical_failed := filter (λ c, is_critical (components o) c) failed in
        match critical_failed with
        | [] => (Some failed, o1)
        | _ :: _ => (Some failed, emit (CriticalAlert critical_failed) o1)
        end
      else (None, emit MonitorError o1)
  end.

(** [n] passes of the monitor loop, as long as [self.running] holds. *)
Fixpoint monitor_loop (w : World) (n : nat) (o : Orchestrator) : Orchestrator :=
  match n with
  | 0 => o
  | S n' => if running o then monitor_loop w n' (monitor_iteration w o).2 else o
  end.

Definition shutdown (w : World) (o : Orchestrator) : Orchestrator :=
  stop_all w (set_running false o).

(** ** Runs *)

(** The orchestrator as [__init__] leaves it. *)
Definition init (comps : gmap string Component) : Orchestrator :=
  mkOrchestrator comps [] true 0 [].

(** The operations a run is made of. *)
Inductive Op :=
  | OpStart (name : string)
  | OpStop (name : string)
  | OpRestart (name : string)
  | OpStartAll
  | OpStopAll
  | OpMonitor.

Definition run_op (w : World) (o : Orchestrator) (op : Op) : Orchestrator :=
  match op with
  | OpStart name => (start_component w name o).2
  | OpStop name => (stop_component w name o).2
  | OpRestart name => restart_component w name o
  | OpStartAll => (start_all w o).2
  | OpStopAll => stop_all w o
  | OpMonitor => (monitor_iteration w o).2
  end.

Definition run_ops (w : World) (ops : list Op) (o : Orchestrator) : Orchestrator :=
  foldl (run_op w) o ops.

(** ** The registry of the source *)

(** [self.components] as [__init__] builds it. *)
Definition default_components : gmap string Component :=
  list_to_map [
    ("ai_server",
       mkComponent "enhanced_ai_server_consolidated.py" (Some 5000%Z) (Some "/health")
         ["model_registry"] true "always" 0 false);
    ("performance_dashboard",
       mkComponent "scripts/monitoring/performance_dashboard.py" (Some 8080%Z)
         (Some "/api/system-status") ["ai_server"] true "always" 5 false);
    ("model_registry",
       mkComponent "scripts/ai/model_registry.py" None None [] true "always" 0 false);
    ("ensemble_system",
       mkComponent "scripts/ai/ensemble_models.py" None None ["model_registry"] false
         "on_failure" 10 false);
    ("regime_detector",
       mkComponent "scripts/ai/market_regime_detector.py" None None [] false "always" 3 false);
    ("phase4_controller",
       mkComponent "scripts/integration/phase4_integration.py" None None
         ["ensemble_system"; "regime_detector"; "model_registry"] true "always" 15 false);
    ("adaptive_learning",
       mkComponent "scripts/ai/adaptive_learning.py" None None ["model_registry"] false
         "on_failure" 20 false);
    ("risk_optimizer",
       mkComponent "scripts/analysis/risk_parameter_optimizer.py" None None ["ai_server"] false
         "on_failure" 30 false);
    ("postmortem_analyzer",
       mkComponent "scripts/monitoring/trade_postmortem_analyzer.py" None None ["ai_server"]
         false "on_failure" 25 false);
    ("enhanced_trade_logger",
       mkComponent "scripts/monitoring/enhanced_trade_logger.py" None None ["ai_server"] true
         "always" 8 false);
    ("backtesting_system",
       mkComponent "scripts/backtesting/comprehensive_backtester.py" None None
         ["phase4_controller"] false "manual" 0 false);
    ("backtesting_integration",
       mkComponent "scripts/integration/backtesting_integration.py" None None
         ["backtesting_system"; "phase4_controller"] false "on_failure" 0 false);
    ("data_processor",
       mkComponent "scripts/data/market_data_processor.py" None None [] false "on_failure" 0 true);
    ("model_trainer",
       mkComponent "scripts/training/automated_model_trainer.py" None None
         ["data_processor"; "model_registry"] false "manual" 0 true)
  ].

(** ** The dependency graph *)

(** The order of [ready.sort]: by startup delay alone. *)
Definition delay_le (comps : gmap string Component) (a b : string) : Prop :=
  (delay_of comps a ≤ delay_of comps b)%Z.

(** [d] stands strictly before [c] in [l]. *)
Definition appears_before (l : list string) (d c : string) : Prop :=
  ∃ i j, l !! i = Some d ∧ l !! j = Some c ∧ i < j.

(** An edge of the dependency graph restricted to the set [act]. *)
Definition dep_edge (comps : gmap string Component) (act : list string) (c d : string) : Prop :=
  c ∈ act ∧ d ∈ act ∧ d ∈ deps_of comps c.

Definition on_cycle (comps : gmap string Component) (act : list string) (c : string) : Prop :=
  tc (dep_edge comps act) c c.

Definition acyclic (comps : gmap string Component) (act : list string) : Prop :=
  ∀ c, ¬ on_cycle comps act c.

(** Every dependency of a member of [act] is a member of [act]. *)
Definition deps_present (comps : gmap string Component) (act : list string) : Prop :=
  ∀ c d, c ∈ act → d ∈ deps_of comps c → d ∈ act.

(** A path along the edges of a relation. *)
Inductive chain {A} (R : relation A) : list A → Prop :=
  | chain_nil : chain R []
  | chain_one x : chain R [x]
  | chain_cons x y l : R x y → chain R (y :: l) → chain R (x :: y :: l).

(** A numbering of the components that drops along every dependency inside
    [act] shows that [act] has no cycle. *)
Definition ranked (comps : gmap string Component) (act : list string) (rank : string → nat)
    : bool :=
  forallb (λ c, forallb (λ d, negb (bool_decide (d ∈ act)) || bool_decide (rank d < rank c))
                        (deps_of comps c)) act.

Definition deps_all_present (comps : gmap string Component) (act : list string) : bool :=
  forallb (λ c, forallb (λ d, bool_decide (d ∈ act)) (deps_of comps c)) act.

(** ** What a log tells *)

(** The components [start_all] announced ("[i/n] Starting ..."). *)
Definition startup_attempts (l : list LogEntry) : list string :=
  omap (λ e, match e with StartingStep _ _ name => Some name | _ => None end) l.

(** The components [stop_component] set out to terminate. *)
Definition stop_attempts (l : list LogEntry) : list string :=
  omap (λ e, match e with StoppingComponent name => Some name | _ => None end) l.

(** The alerts that were raised, each with the critical components it names. *)
Definition alerts (l : list LogEntry) : list (list string) :=
  omap (λ e, match e with CriticalAlert cs => Some cs | _ => None end) l.

(** The number of restarts a log records. *)
Definition restarts_of (name : string) (l : list LogEntry) : nat :=
  length (filter (λ e, e = Restarting name) l).

(** The sequence of actual starts: a component enters at the end when it is
    logged as started and leaves when it is logged as stopped. *)
Definition track_step (acc : list string) (e : LogEntry) : list string :=
  match e with
  | StartedSuccessfully name _ => acc ++ [name]
  | Stopped name => filter (λ n, n ≠ name) acc
  | _ => acc
  end.

Definition actual_start_order (l : list LogEntry) : list string := foldl track_step [] l.

(** The entries none of the readings of a log looks at. *)
Definition unobserved (e : LogEntry) : bool :=
  match e with
  | StartingStep _ _ _ | StoppingComponent _ | StartedSuccessfully _ _ | Stopped _
  | CriticalAlert _ => false
  | _ => true
  end.

Definition track_neutral (e : LogEntry) : bool :=
  match e with StartedSuccessfully _ _ | Stopped _ => false | _ => true end.

(** ** Consistency and evolution of the state *)

(** The keys are distinct, and every instance carries the registry's
    description of its component. *)
Definition consistent (o : Orchestrator) : Prop :=
  NoDup (Dict.keys (processes o))
  ∧ ∀ name info, Dict.get name (processes o) = Some info →
      components o !! name = Some (component_info info).

(** The keys are the sequence of actual starts read off the log. *)
Definition tracked (o : Orchestrator) : Prop :=
  Dict.keys (processes o) = actual_start_order (log o).

(** From [o] to [o']: the registry is the same, the log has grown, and the
    keys of the dictionary changed as the new log entries tell. *)
Definition evolves (o o' : Orchestrator) : Prop :=
  components o' = components o
  ∧ ∃ es, log o' = log o ++ es
      ∧ Dict.keys (processes o') = foldl track_step (Dict.keys (processes o)) es.

(** Whether the calls that [stop_component] makes on a process handle at time
    [t] raise: [terminate], then [wait(timeout=10)], then after a timeout
    [kill] and [wait]. *)
Definition stop_raises (w : World) (t p : nat) : bool :=
  negb (terminate w t p)
  || match wait_timeout w (S t) p with
     | Reaped => false
     | WaitRaised => true
     | TimeoutExpired => negb (kill w (S (S t)) p) || negb (wait w (S (S (S t))) p)
     end.

(** What puts a component on the failed list of a pass: its probe failed, and
    its policy is neither ['always'] nor ['on_failure'] below the ceiling. *)
Definition failed_by_policy (w : World) (o : Orchestrator) (c : string) : Prop :=
  ∃ info oc,
    Dict.get c (processes o) = Some info
    ∧ Dict.get c (processes oc) = Some info
    ∧ (check_component_health w c oc).1 = false
    ∧ restart_policy (component_info info) ≠ "always"
    ∧ (restart_policy (component_info info) = "on_failure" → 3 ≤ restart_count info).

(** ** Example registries and worlds *)

(** The scenario of the specification: [a] without dependencies, [b]
    depending on [a], [c] critical and depending on both, and [d] depending on
    [c]. *)
Definition abcd_components : gmap string Component :=
  list_to_map [
    ("a", mkComponent "a.py" None None [] false "manual" 0 false);
    ("b", mkComponent "bb.py" None None ["a"] false "manual" 0 false);
    ("c", mkComponent "ccc.py" None None ["a"; "b"] true "manual" 0 false);
    ("d", mkComponent "dddd.py" None None ["c"] false "manual" 0 false)
  ].

(** [x] and [y] depend on each other, [z] depends on [x], [a] on nothing. *)
Definition cyclic_components : gmap string Component :=
  list_to_map [
    ("a", mkComponent "a.py" None None [] false "manual" 0 false);
    ("x", mkComponent "x.py" None None ["y"] true "manual" 0 false);
    ("y", mkComponent "y.py" None None ["x"] true "manual" 0 false);
    ("z", mkComponent "z.py" None None ["x"] false "manual" 0 false)
  ].

(** [z] depends on a name that is not in the registry. *)
Definition ghost_components : gmap string Component :=
  list_to_map [
    ("z", mkComponent "z.py" None None ["ghost"] true "manual" 0 false)
  ].

(** Two components without dependencies and with the same startup delay. *)
Definition tie_components : gmap string Component :=
  list_to_map [
    ("a", mkComponent "a.py" None None [] false "manual" 0 false);
    ("b", mkComponent "b.py" None None [] false "manual" 0 false)
  ].

(** One service with a port and the policy ['on_failure']. *)
Definition svc_components : gmap string Component :=
  list_to_map [
    ("svc", mkComponent "svc.py" (Some 9090%Z) None [] false "on_failure" 0 false)
  ].

(** A world in which every script exists, a spawned process is known by the
    length of its script name, every process keeps running and stops when
    asked, and every port answers. *)
Definition calm_world : World :=
  mkWorld elements (λ _, true) (λ _ s, Some (String.length s)) (λ _ _, None)
    (λ _ _, true) (λ _ _, Reaped) (λ _ _, true) (λ _ _, true)
    (λ _ _, Some 0%Z) (λ _ _ _, Some 200%Z).

(** The same world, except that the process of [ccc.py] exits at once. *)
Definition c_dies_world : World :=
  mkWorld elements (λ _, true) (λ _ s, Some (String.length s))
    (λ _ p, if decide (p = 6) then Some 1%Z else None)
    (λ _ _, true) (λ _ _, Reaped) (λ _ _, true) (λ _ _, true)
    (λ _ _, Some 0%Z) (λ _ _ _, Some 200%Z).

(** A world in which [terminate] raises. *)
Definition stubborn_world : World :=
  mkWorld elements (λ _, true) (λ _ s, Some (String.length s)) (λ _ _, None)
    (λ _ _, false) (λ _ _, Reaped) (λ _ _, true) (λ _ _, true)
    (λ _ _, Some 0%Z) (λ _ _ _, Some 200%Z).

(** [calm_world] with the set of names iterated the other way round. *)
Definition mirror_world : World :=
  mkWorld (λ s, reverse (elements s)) (λ _, true) (λ _ s, Some (String.length s))
    (λ _ _, None) (λ _ _, true) (λ _ _, Reaped) (λ _ _, true) (λ _ _, true)
    (λ _ _, Some 0%Z) (λ _ _ _, Some 200%Z).

(** [calm_world], except that nothing ever listens on a port: every probe of
    a component with a port fails, while its process runs and stops and
    starts without error. *)
Definition deaf_world : World :=
  mkWorld elements (λ _, true) (λ _ s, Some (String.length s)) (λ _ _, None)
    (λ _ _, true) (λ _ _, Reaped) (λ _ _, true) (λ _ _, true)
    (λ _ _, Some 111%Z) (λ _ _ _, None).

(** [calm_world], except that [terminate] raises at the logical time 2. *)
Definition flaky_world : World :=
  mkWorld elements (λ _, true) (λ _ s, Some (String.length s)) (λ _ _, None)
    (λ t _, bool_decide (t ≠ 2)) (λ _ _, Reaped) (λ _ _, true) (λ _ _, true)
    (λ _ _, Some 0%Z) (λ _ _ _, Some 200%Z).

(** The file system of the source tree, without the script of the optional
    [data_processor]. *)
Definition no_data_processor_world : World :=
  mkWorld elements (λ s, bool_decide (s ≠ "scripts/data/market_data_processor.py"))
    (λ t _, Some t) (λ _ _, None) (λ _ _, true) (λ _ _, Reaped) (λ _ _, true) (λ _ _, true)
    (λ _ _, Some 0%Z) (λ _ _ _, Some 200%Z).

(** ** Vocabulary for the monitor loop *)

(** A world in which every process runs, every port accepts a connection and
    every health endpoint answers with status 200, at all times. *)
Definition always_healthy (w : World) : Prop :=
  (∀ t p, poll w t p = None)
  ∧ (∀ t pt, connect_ex w t pt = Some 0%Z)
  ∧ (∀ t pt path, http_get w t pt path = Some 200%Z).

(** Every instance with the policy ['on_failure'] has a restart counter of at
    most 3. *)
Definition within_restart_ceiling (o : Orchestrator) : Prop :=
  ∀ name info, Dict.get name (processes o) = Some info →
    restart_policy (component_info info) = "on_failure" → restart_count info ≤ 3.

(** The operations other than a restart asked for by name. *)
Definition not_manual_restart (op : Op) : bool :=
  match op with OpRestart _ => false | _ => true end.

(** The components [restart_component] was called for. *)
Definition restarted (l : list LogEntry) : list string :=
  omap (λ e, match e with Restarting name => Some name | _ => None end) l.

(** ** The status report: [get_system_status] *)

(** The ['status'] of one component in the report. *)
Inductive ComponentState := StateHealthy | StateUnhealthy | StateStopped | StateNotRunning.

(** One value of [status['components']]: criticality, dependencies, state, and
    where the source sets them the pid, the restart counter and the exit
    code.  The ['type'] and ['uptime'] entries, which only echo the
    configuration and the wall clock, are left out. *)
Record ComponentStatus := mkComponentStatus {
  status_critical : bool;
  status_dependencies : list string;
  status_state : ComponentState;
  status_pid : option nat;
  status_restart_count : option nat;
  status_exit_code : option Z
}.

(** [status['summary']] *)
Record Summary := mkSummary {
  total_components : nat;
  running_components : nat;
  healthy_components : nat;
  critical_components_running : nat;
  total_critical_components : nat
}.

Definition count_if (b : bool) (n : nat) : nat := if b then S n else n.

(** The loop of [get_system_status] over [self.components.items()].  [items]
    is the list of keys in the order of the dictionary, which the finite map
    of the registry does not keep.  The report is built in that order. *)
Fixpoint status_loop (w : World) (items : list string)
    (report : list (string * ComponentStatus)) (s : Summary) (o : Orchestrator)
    : list (string * ComponentStatus) * Summary * Orchestrator :=
  match items with
  | [] => (report, s, o)
  | name :: rest =>
      match components o !! name with
      | None => status_loop w rest report s o
      | Some config =>
          if is_excluded w config then status_loop w rest report s o
          else
            let s1 :=
              mkSummary (total_components s) (running_components s) (healthy_components s)
                (critical_components_running s)
                (count_if (critical config) (total_critical_components s)) in
            match Dict.get name (processes o) with
            | None =>
                status_loop w rest
                  (Dict.set name
                     (mkComponentStatus (critical config) (dependencies config)
                        StateNotRunning None None None) report) s1 o
            | Some info =>
                match poll w (clock o) (process info) with
                | None =>
                    let (health, o1) := check_component_health w name (tick o) in
                    let s2 :=
                      mkSummary (total_components s1) (S (running_components s1))
                        (count_if health (healthy_components s1))
                        (count_if (critical config) (critical_components_running s1))
                        (total_critical_components s1) in
                    status_loop w rest
                      (Dict.set name
                         (mkComponentStatus (critical config) (dependencies config)
                            (if health then StateHealthy else StateUnhealthy)
                            (Some (process info)) (Some (restart_count info)) None) report)
                      s2 o1
                | Some rc =>
                    status_loop w rest
                      (Dict.set name
                         (mkComponentStatus (critical config) (dependencies config)
                            StateStopped None (Some (restart_count info)) (Some rc)) report)
                      s1 (tick o)
                end
            end
      end
  end.

Definition get_system_status (w : World) (items : list string) (o : Orchestrator)
    : list (string * ComponentStatus) * Summary * Orchestrator :=
  status_loop w items [] (mkSummary (size (components o)) 0 0 0 0) o.

(** [restart_all]: [stop_all], then [start_all]. *)
Definition restart_all (w : World) (o : Orchestrator) : option bool * Orchestrator :=
  start_all w (stop_all w o).

(** The components the report lists: the keys of the registry that are not
    optional components without a script. *)
Definition listed (w : World) (comps : gmap string Component) (name : string) : bool :=
  match comps !! name with Some config => negb (is_excluded w config) | None => false end.

(** [deaf_world] in which, in addition, [terminate] raises: every probe of a
    component with a port fails and no stop goes through. *)
Definition deaf_stubborn_world : World :=
  mkWorld elements (λ _, true) (λ _ s, Some (String.length s)) (λ _ _, None)
    (λ _ _, false) (λ _ _, Reaped) (λ _ _, true) (λ _ _, true)
    (λ _ _, Some 111%Z) (λ _ _ _, None).

(** ** Vocabulary for shutdown and for the startup after resolution *)

(** The number of calls [stop_component] makes on a process handle when it
    starts at time [t]: [terminate]; then [wait(timeout=10)]; then, after a
    timeout, [kill] and, when that returns, [wait]. *)
Definition stop_duration (w : World) (t p : nat) : nat :=
  if negb (terminate w t p) then 1
  else
    match wait_timeout w (S t) p with
    | Reaped | WaitRaised => 2
    | TimeoutExpired => if negb (kill w (S (S t)) p) then 3 else 4
    end.

(** The stops of the instances [todo], one after the other from time [t] on:
    each name with the time at which [terminate] is called on its process and
    whether one of the calls of its stop raises. *)
Fixpoint shutdown_schedule (w : World) (t : nat) (todo : list (string * ProcessInfo))
    : list (string * nat * bool) :=
  match todo with
  | [] => []
  | (name, info) :: rest =>
      (name, t, stop_raises w t (process info))
      :: shutdown_schedule w (t + stop_duration w t (process info)) rest
  end.

(** The names of a schedule whose stop raises ([true]) or goes through
    ([false]). *)
Definition scheduled (raised : bool) (plan : list (string * nat * bool)) : list string :=
  (λ x, x.1.1) <$> filter (λ x, x.2 = raised) plan.

(** The time at which a schedule that starts at [t] ends. *)
Fixpoint schedule_end (w : World) (t : nat) (todo : list (string * ProcessInfo)) : nat :=
  match todo with
  | [] => t
  | (name, info) :: rest => schedule_end w (t + stop_duration w t (process info)) rest
  end.

(** The components logged as stopped, and those whose stop was logged as an
    error. *)
Definition stopped_ok (l : list LogEntry) : list string :=
  omap (λ e, match e with Stopped name => Some name | _ => None end) l.

Definition stop_errors (l : list LogEntry) : list string :=
  omap (λ e, match e with ErrorStopping name => Some name | _ => None end) l.

(** The unresolved sets the resolver logged. *)
Definition resolver_errors (l : list LogEntry) : list (list string) :=
  omap (λ e, match e with CircularOrMissing u => Some u | _ => None end) l.

(** What [start_all] does with the outcome of its loop. *)
Definition finish_startup (r : StartLoopResult * Orchestrator) : option bool * Orchestrator :=
  match r with
  | (LoopKeyError, o3) => (None, o3)
  | (LoopAborted, o3) => (Some false, o3)
  | (LoopDone failed, o3) =>
      let o4 := match failed with [] => o3 | _ :: _ => emit (FailedToStartList failed) o3 end in
      (Some (bool_decide (length failed = 0)), emit StartupCompleted o4)
  end.

(** * Properties *)

(** ** The stable sort by startup delay *)

Section sort_by_delay.
Context (comps : gmap string Component).

Lemma insert_by_delay_perm x l : insert_by_delay comps x l ≡ₚ x :: l.
Proof.
  induction l as [|y l IH]; simpl; [done|].
  destruct (delay_of comps x <=? delay_of comps y)%Z; [done|].
  rewrite IH. apply Permutation_swap.
Qed.

Lemma sort_by_delay_perm l : sort_by_delay comps l ≡ₚ l.
Proof.
  induction l as [|x l IH]; simpl; [done|].
  by rewrite insert_by_delay_perm, IH.
Qed.

Lemma elem_of_sort_by_delay x l : x ∈ sort_by_delay comps l ↔ x ∈ l.
Proof. by rewrite sort_by_delay_perm. Qed.

Lemma insert_by_delay_sorted x l :
  StronglySorted (delay_le comps) l →
  StronglySorted (delay_le comps) (insert_by_delay comps x l).
Proof.
  induction 1 as [|y l Hl IH Hy]; simpl.
  - repeat constructor.
  - destruct (Z.leb_spec (delay_of comps x) (delay_of comps y)) as [Hle|Hlt].
    + constructor; [by constructor|].
      constructor; [done|].
      eapply Forall_impl; [exact Hy|]. unfold delay_le. intros z Hz. simpl in Hz. lia.
    + constructor; [done|].
      rewrite insert_by_delay_perm. constructor; [|done].
      unfold delay_le. lia.
Qed.

Lemma sort_by_delay_sorted l : StronglySorted (delay_le comps) (sort_by_delay comps l).
Proof.
  induction l as [|x l IH]; simpl; [constructor|].
  by apply insert_by_delay_sorted.
Qed.

(** Stability: the components of one delay keep their relative order. *)
Lemma insert_by_delay_stable (d : Z) x l :
  filter (λ y, delay_of comps y = d) (insert_by_delay comps x l)
  = filter (λ y, delay_of comps y = d) (x :: l).
Proof.
  induction l as [|y l IH]; simpl; [done|].
  destruct (Z.leb_spec (delay_of comps x) (delay_of comps y)) as [Hle|Hlt]; [done|].
  rewrite (filter_cons _ y), IH, !filter_cons.
  repeat case_decide; try done; lia.
Qed.

Lemma sort_by_delay_stable (d : Z) l :
  filter (λ y, delay_of comps y = d) (sort_by_delay comps l)
  = filter (λ y, delay_of comps y = d) l.
Proof.
  induction l as [|x l IH]; simpl; [done|].
  rewrite insert_by_delay_stable, !filter_cons, IH. done.
Qed.

End sort_by_delay.

(** ** Paths and cycles *)

Section graph.
Context {A : Type} `{EqDecision A} (R : relation A).

Lemma chain_tail x l : chain R (x :: l) → chain R l.
Proof. inversion 1; subst; [constructor | done]. Qed.

Lemma chain_head_tc x l y : chain R (x :: l) → y ∈ l → tc R x y.
Proof.
  revert x. induction l as [|z l IH]; intros x Hc Hy; [by apply elem_of_nil in Hy|].
  inversion Hc as [| |? ? ? Hxz Hc']; subst.
  apply elem_of_cons in Hy as [->|Hy]; [by apply tc_once|].
  eapply tc_l; [exact Hxz|]. by apply IH.
Qed.

(** A path that visits a node twice goes round a cycle. *)
Lemma chain_repeat_cycle l : chain R l → ¬ NoDup l → ∃ x, x ∈ l ∧ tc R x x.
Proof.
  induction l as [|x l IH]; intros Hc Hnd; [by destruct Hnd; constructor|].
  destruct (decide (x ∈ l)) as [Hin|Hnin].
  - exists x. split; [by left|]. by eapply chain_head_tc.
  - destruct IH as (y & Hy & Hcy); [by eapply chain_tail| |].
    + intros Hl. apply Hnd. by constructor.
    + exists y. split; [by right | done].
Qed.

(** In a set every member of which has a successor in the set, paths of any
    length start at every member. *)
Lemma chain_extend (S : list A) n :
  (∀ c, c ∈ S → ∃ d, d ∈ S ∧ R c d) →
  ∀ c, c ∈ S → ∃ l, length l = n ∧ chain R (c :: l) ∧ Forall (.∈ S) (c :: l).
Proof.
  intros Hsucc. induction n as [|n IH]; intros c Hc.
  - exists []. split; [done|]. split; [constructor|]. by repeat constructor.
  - destruct (Hsucc c Hc) as (d & Hd & Hcd).
    destruct (IH d Hd) as (l & Hlen & Hch & Hall).
    exists (d :: l). split; [simpl; lia|]. split; [by constructor|]. by constructor.
Qed.

(** Pigeonhole: such a set, when not empty, contains a cycle. *)
Lemma closed_set_has_cycle (S : list A) :
  S ≠ [] → (∀ c, c ∈ S → ∃ d, d ∈ S ∧ R c d) → ∃ x, x ∈ S ∧ tc R x x.
Proof.
  intros Hne Hsucc.
  assert (∃ c, c ∈ S) as [c Hc] by (destruct S as [|c S']; [done | exists c; left]).
  destruct (chain_extend S (length S) Hsucc c) as (l & Hlen & Hch & Hall); [done|].
  destruct (chain_repeat_cycle (c :: l) Hch) as (x & Hx & Hcyc).
  - intros Hnd. apply (NoDup_submseteq _ S) in Hnd.
    + apply submseteq_length in Hnd. rewrite length_cons in Hnd. lia.
    + intros y Hy. by eapply Forall_forall in Hall.
  - exists x. split; [|done]. by eapply Forall_forall in Hall.
Qed.

(** A node on a cycle has a successor on a cycle. *)
Lemma cycle_successor x : tc R x x → ∃ y, R x y ∧ tc R y y.
Proof.
  intros Hx. inversion Hx as [? ? Hxx|? y ? Hxy Hyx]; subst.
  - by exists x.
  - exists y. split; [done|]. eapply tc_r; [exact Hyx | done].
Qed.

(** A numbering that decreases along every edge rules cycles out. *)
Lemma ranked_no_cycle (rank : A → nat) :
  (∀ x y, R x y → rank y < rank x) → ∀ x, ¬ tc R x x.
Proof.
  intros Hrank.
  assert (∀ x y, tc R x y → rank y < rank x) as Htc.
  { induction 1 as [x y Hxy|x y z Hxy _ IH]; [by apply Hrank|].
    apply Hrank in Hxy. lia. }
  intros x Hx. apply Htc in Hx. lia.
Qed.

End graph.

(** ** The resolver loop *)

Section resolver.
Context (comps : gmap string Component).

Lemma is_ready_spec ordered remaining name :
  is_ready comps ordered remaining name
  ↔ ∀ dep, dep ∈ deps_of comps name → dep ∈ ordered ∨ dep ∉ remaining.
Proof.
  unfold is_ready. rewrite forallb_True, Forall_forall.
  apply forall_proper; intros dep. apply forall_proper; intros _.
  rewrite orb_True, negb_True, !bool_decide_spec. done.
Qed.

(** A component that is not ready waits for a dependency in [remaining]. *)
Lemma not_ready_blocked ordered remaining name :
  ¬ is_ready comps ordered remaining name →
  ∃ dep, dep ∈ deps_of comps name ∧ (dep ∉ ordered) ∧ dep ∈ remaining.
Proof.
  unfold is_ready. rewrite forallb_True. intros Hn.
  apply not_Forall_Exists in Hn; [|apply _].
  apply Exists_exists in Hn as (dep & Hdep & Hb). exists dep. split; [done|].
  unfold compose in Hb. rewrite orb_True, negb_True, !bool_decide_spec in Hb.
  split; [tauto|]. destruct (decide (dep ∈ remaining)); tauto.
Qed.

Lemma list_difference_ready ordered remaining :
  list_difference remaining (sort_by_delay comps (ready_components comps ordered remaining))
  = filter (λ name, ¬ is_ready comps ordered remaining name) remaining.
Proof.
  unfold ready_components.
  generalize (is_ready comps ordered remaining). intros P.
  assert (∀ l k : list string, (∀ x, x ∈ l → x ∈ k) →
    list_difference l (sort_by_delay comps (filter (λ n, P n) k)) = filter (λ n, ¬ P n) l) as H.
  { induction l as [|x l IH]; intros k Hk; [done|].
    simpl. rewrite filter_cons.
    rewrite IH by (intros y Hy; apply Hk; by right).
    assert (x ∈ k) as Hx by (apply Hk; left).
    destruct (decide_rel _ x _) as [Hin|Hnin]; case_decide as HP; try done.
    - apply elem_of_sort_by_delay, list_elem_of_filter in Hin. tauto.
    - exfalso. apply Hnin. apply elem_of_sort_by_delay, list_elem_of_filter.
      split; [|done]. destruct (P x); [done|]. by destruct HP. }
  by apply H.
Qed.

(** One pass splits [remaining] into the batch appended and the rest. *)
Lemma ready_split ordered remaining :
  sort_by_delay comps (ready_components comps ordered remaining)
    ++ list_difference remaining
         (sort_by_delay comps (ready_components comps ordered remaining))
  ≡ₚ remaining.
Proof.
  rewrite list_difference_ready, sort_by_delay_perm. unfold ready_components.
  apply filter_app_complement.
Qed.

Lemma startup_loop_unfold fuel ordered remaining :
  remaining ≠ [] →
  startup_loop comps (S fuel) ordered remaining =
    match ready_components comps ordered remaining with
    | [] => Some (ordered, Some remaining)
    | r :: rs =>
        startup_loop comps fuel (ordered ++ sort_by_delay comps (r :: rs))
          (list_difference remaining (sort_by_delay comps (r :: rs)))
    end.
Proof. by destruct remaining. Qed.

(** What the loop computes, for any fuel that covers [remaining]: it returns;
    the names appended and the names left unresolved are those of
    [remaining]; a name is appended after the dependencies it has among
    [ordered] and [remaining]; when names are left, there is at least one and
    each waits for another one of them. *)
Lemma startup_loop_spec fuel : ∀ ordered remaining,
  length remaining ≤ fuel →
  ∃ ext res,
    startup_loop comps fuel ordered remaining = Some (ordered ++ ext, res)
    ∧ ext ++ default [] res ≡ₚ remaining
    ∧ (∀ c d, c ∈ ext → d ∈ deps_of comps c → d ∈ ordered ++ remaining →
         appears_before (ordered ++ ext) d c)
    ∧ (∀ u, res = Some u →
         u ≠ [] ∧ ∀ c, c ∈ u → ∃ d, d ∈ u ∧ d ∈ deps_of comps c).
Proof.
  induction fuel as [|fuel IH]; intros ordered remaining Hlen.
  { destruct remaining; [|simpl in Hlen; lia].
    exists [], None. simpl. rewrite app_nil_r. split_and!; try done.
    intros c d Hc. by apply elem_of_nil in Hc. }
  destruct (decide (remaining = [])) as [->|Hne].
  { exists [], None. simpl. rewrite app_nil_r. split_and!; try done.
    intros c d Hc. by apply elem_of_nil in Hc. }
  rewrite startup_loop_unfold by done.
  pose proof (ready_split ordered remaining) as Hsplit.
  destruct (ready_components comps ordered remaining) as [|r rs] eqn:Hready.
  - (* no component is ready: the loop leaves through [break] *)
    exists [], (Some remaining). rewrite app_nil_r. split_and!; try done.
    + intros c d Hc. by apply elem_of_nil in Hc.
    + intros u [= <-]. split; [done|]. intros c Hc.
      destruct (not_ready_blocked ordered remaining c) as (d & Hd & _ & Hdr).
      * intros Hr. eapply (filter_nil_not_elem_of _ _ c); [exact Hready| exact Hr | exact Hc].
      * by exists d.
  - set (batch := sort_by_delay comps (r :: rs)) in *.
    assert (∀ x, x ∈ batch ↔ is_ready comps ordered remaining x ∧ x ∈ remaining) as Hbatch.
    { intros x. unfold batch. rewrite elem_of_sort_by_delay, <- Hready.
      unfold ready_components. by rewrite list_elem_of_filter. }
    assert (r ∈ batch) as Hr by (unfold batch; rewrite elem_of_sort_by_delay; left).
    assert (length (list_difference remaining batch) ≤ fuel) as Hfuel.
    { apply Permutation_length in Hsplit. rewrite length_app in Hsplit.
      destruct batch; [by apply elem_of_nil in Hr | simpl in Hsplit; lia]. }
    destruct (IH (ordered ++ batch) (list_difference remaining batch) Hfuel)
      as (ext & res & Heq & Hperm & Hord & Hres).
    exists (batch ++ ext), res. rewrite (assoc_L (++)). split_and!; [done| | |done].
    + rewrite <- (assoc_L (++)), Hperm. exact Hsplit.
    + intros c d Hc Hd Hin. apply elem_of_app in Hc as [Hc|Hc].
      * (* [c] is in this batch: its dependency was ordered before *)
        apply Hbatch in Hc as Hc'. destruct Hc' as [Hrdy Hcr].
        apply is_ready_spec with (dep := d) in Hrdy; [|done].
        assert (d ∈ ordered) as Hdo.
        { apply elem_of_app in Hin. tauto. }
        apply list_elem_of_lookup in Hdo as [i Hi].
        apply list_elem_of_lookup in Hc as [j Hj].
        exists i, (length ordered + j). split_and!.
        -- rewrite <- !(assoc_L (++)). by apply lookup_app_l_Some.
        -- rewrite <- !(assoc_L (++)), lookup_app_r by lia.
           replace (length ordered + j - length ordered) with j by lia.
           by apply lookup_app_l_Some.
        -- apply lookup_lt_Some in Hi. lia.
      * apply Hord; [done..|].
        rewrite <- (assoc_L (++)). apply elem_of_app in Hin as [Hin|Hin].
        -- apply elem_of_app. by left.
        -- apply elem_of_app. right. rewrite Hsplit. done.
Qed.

End resolver.

(** ** The active set *)

Section active.
Context (w : World) (comps : gmap string Component).
Hypothesis set_iter_keys : set_iter w (dom comps) ≡ₚ elements (dom comps).

Lemma elem_of_active c :
  c ∈ active_components w comps
  ↔ ∃ comp, comps !! c = Some comp ∧ is_excluded w comp = false.
Proof.
  unfold active_components. rewrite list_elem_of_filter, set_iter_keys.
  rewrite elem_of_elements, elem_of_dom. unfold excluded_name, is_Some.
  split.
  - intros [Hex [comp Hc]]. exists comp. rewrite Hc in Hex.
    split; [done|]. by destruct (is_excluded w comp).
  - intros (comp & Hc & Hex). rewrite Hc, Hex. eauto.
Qed.

Lemma NoDup_active : NoDup (active_components w comps).
Proof.
  unfold active_components. apply NoDup_filter.
  rewrite set_iter_keys. apply NoDup_elements.
Qed.

End active.

Lemma on_cycle_active comps act c : on_cycle comps act c → c ∈ act.
Proof. intros H. inversion H as [? ? [? _]|? ? ? [? _]]; by subst. Qed.

(** No component on a cycle enters an order in which every component comes
    after its dependencies. *)
Lemma ordered_off_cycle comps act (ordered : list string) :
  NoDup ordered →
  (∀ c d, c ∈ ordered → d ∈ deps_of comps c → d ∈ act → appears_before ordered d c) →
  ∀ c, c ∈ ordered → ¬ on_cycle comps act c.
Proof.
  intros Hnd Hord.
  assert (∀ j c, ordered !! j = Some c → ¬ on_cycle comps act c) as Hj.
  { induction j as [j IH] using lt_wf_ind. intros c Hc Hcyc.
    apply cycle_successor in Hcyc as (d & (_ & Hd & Hdep) & Hdcyc).
    destruct (Hord c d) as (i & j' & Hi & Hj' & Hlt); [by eapply list_elem_of_lookup_2|done..|].
    assert (j' = j) as -> by (by eapply NoDup_lookup).
    by eapply IH. }
  intros c Hc. apply list_elem_of_lookup in Hc as [j Hc]. by eapply Hj.
Qed.

(** What [resolve] returns, for every registry. *)
Lemma resolve_spec (w : World) (comps : gmap string Component) :
  ∃ ordered res,
    resolve w comps = Some (ordered, res)
    ∧ ordered ++ default [] res ≡ₚ active_components w comps
    ∧ (∀ c d, c ∈ ordered → d ∈ deps_of comps c → d ∈ active_components w comps →
         appears_before ordered d c)
    ∧ (∀ u, res = Some u →
         u ≠ [] ∧ ∀ c, c ∈ u → ∃ d, d ∈ u ∧ d ∈ deps_of comps c).
Proof.
  unfold resolve.
  destruct (startup_loop_spec comps (length (active_components w comps)) []
              (active_components w comps)) as (ext & res & Heq & Hperm & Hord & Hres); [done|].
  exists ext, res. split_and!; try done.
Qed.

Lemma get_startup_order_resolve (w : World) (o : Orchestrator) ordered res :
  resolve w (components o) = Some (ordered, res) →
  get_startup_order w o =
    (ordered,
     emits (from_option (λ u, [CircularOrMissing u]) [] res)
       (emits (OptionalNotFound <$> removed_optionals w (components o)) o)).
Proof.
  intros H. unfold get_startup_order. rewrite H. destruct res; simpl; [done|].
  unfold emits. simpl. by rewrite app_nil_r.
Qed.

(** ** The dictionary operations *)

Section dict.
Context {V : Type}.
Implicit Types (d : list (string * V)) (k : string) (v : V).

Lemma Dict_get_None k d : Dict.get k d = None ↔ k ∉ Dict.keys d.
Proof.
  unfold Dict.keys. induction d as [|[k' v'] d IH]; simpl.
  - split; [intros _; apply not_elem_of_nil | done].
  - rewrite not_elem_of_cons. case_decide; [subst; split; [done | tauto]|].
    rewrite IH. tauto.
Qed.

Lemma Dict_get_Some_key k v d : Dict.get k d = Some v → k ∈ Dict.keys d.
Proof.
  intros Hk. destruct (decide (k ∈ Dict.keys d)) as [|Hn]; [done|].
  apply Dict_get_None in Hn. congruence.
Qed.

Lemma Dict_mem_true k d : Dict.mem k d = true ↔ is_Some (Dict.get k d).
Proof. unfold Dict.mem. destruct (Dict.get k d); split; try done; eauto. Qed.

Lemma Dict_mem_false k d : Dict.mem k d = false ↔ Dict.get k d = None.
Proof. unfold Dict.mem. by destruct (Dict.get k d). Qed.

Lemma Dict_get_set_eq k v d : Dict.get k (Dict.set k v d) = Some v.
Proof.
  induction d as [|[k' v'] d IH]; simpl; [by case_decide|].
  case_decide; simpl; case_decide; done.
Qed.

Lemma Dict_get_set_ne k k' v d : k ≠ k' → Dict.get k' (Dict.set k v d) = Dict.get k' d.
Proof.
  intros Hne. induction d as [|[k'' v''] d IH]; simpl.
  - case_decide; [congruence | done].
  - case_decide; simpl; repeat case_decide; try done; congruence.
Qed.

(** A new key goes to the end. *)
Lemma Dict_set_absent k v d : Dict.get k d = None → Dict.set k v d = d ++ [(k, v)].
Proof.
  induction d as [|[k' v'] d IH]; simpl; [done|].
  case_decide; [done|]. intros Hk. by rewrite IH.
Qed.

(** A present key keeps its position. *)
Lemma Dict_keys_set_present k v d :
  is_Some (Dict.get k d) → Dict.keys (Dict.set k v d) = Dict.keys d.
Proof.
  unfold Dict.keys. induction d as [|[k' v'] d IH]; simpl; [by intros [? ?]|].
  case_decide; simpl; [by subst|]. intros Hk. f_equal. by apply IH.
Qed.

Lemma Dict_keys_del k d : Dict.keys (Dict.del k d) = filter (λ n, n ≠ k) (Dict.keys d).
Proof.
  unfold Dict.keys, Dict.del. induction d as [|[k' v'] d IH]; simpl; [done|].
  rewrite !filter_cons. simpl. case_decide; simpl; [f_equal|]; apply IH.
Qed.

Lemma Dict_get_del_eq k d : Dict.get k (Dict.del k d) = None.
Proof.
  apply Dict_get_None. rewrite Dict_keys_del, list_elem_of_filter. tauto.
Qed.

Lemma Dict_get_del_ne k k' d : k ≠ k' → Dict.get k' (Dict.del k d) = Dict.get k' d.
Proof.
  intros Hne. unfold Dict.del. induction d as [|[k'' v''] d IH]; simpl; [done|].
  rewrite filter_cons. simpl. repeat case_decide; simpl; repeat case_decide; try done; congruence.
Qed.

Lemma Dict_del_absent k d : Dict.get k d = None → Dict.del k d = d.
Proof.
  unfold Dict.del. induction d as [|[k' v'] d IH]; simpl; [done|].
  case_decide; [done|]. intros Hk. rewrite filter_cons. simpl.
  case_decide; [|congruence]. by rewrite IH.
Qed.

(** Inserting a new key and deleting it again gives the dictionary back. *)
Lemma Dict_del_set_absent k v d : Dict.get k d = None → Dict.del k (Dict.set k v d) = d.
Proof.
  intros Hk. rewrite Dict_set_absent by done. unfold Dict.del.
  rewrite filter_app. fold (Dict.del k d). rewrite Dict_del_absent by done.
  rewrite filter_cons. simpl. case_decide; [done|]. by rewrite filter_nil, app_nil_r.
Qed.

End dict.

(** ** Reading a log *)

Lemma startup_attempts_app l1 l2 :
  startup_attempts (l1 ++ l2) = startup_attempts l1 ++ startup_attempts l2.
Proof. apply omap_app. Qed.

Lemma stop_attempts_app l1 l2 : stop_attempts (l1 ++ l2) = stop_attempts l1 ++ stop_attempts l2.
Proof. apply omap_app. Qed.

Lemma actual_start_order_app l1 l2 :
  actual_start_order (l1 ++ l2) = foldl track_step (actual_start_order l1) l2.
Proof. apply foldl_app. Qed.

Lemma alerts_app l1 l2 : alerts (l1 ++ l2) = alerts l1 ++ alerts l2.
Proof. apply omap_app. Qed.

Lemma unobserved_alerts es : Forall unobserved es → alerts es = [].
Proof. induction 1 as [|e es He _ IH]; [done|]. by destruct e. Qed.

Lemma unobserved_startup_attempts es : Forall unobserved es → startup_attempts es = [].
Proof. induction 1 as [|e es He _ IH]; [done|]. by destruct e. Qed.

Lemma unobserved_stop_attempts es : Forall unobserved es → stop_attempts es = [].
Proof. induction 1 as [|e es He _ IH]; [done|]. by destruct e. Qed.

Lemma unobserved_track acc es : Forall unobserved es → foldl track_step acc es = acc.
Proof. induction 1 as [|e es He _ IH]; [done|]. by destruct e. Qed.

(** ** [check_component_dependencies] *)

Lemma check_dependencies_frame w name deps : ∀ o,
  let r := check_dependencies w name deps o in
  components r.2 = components o ∧ processes r.2 = processes o ∧ running r.2 = running o
  ∧ ∃ es, log r.2 = log o ++ es ∧ Forall unobserved es.
Proof.
  induction deps as [|dep deps IH]; intros o; simpl.
  { split_and!; try done. exists []. by rewrite app_nil_r. }
  destruct (Dict.get dep (processes o)) as [info|]; simpl.
  - destruct (poll w (clock o) (process info)); simpl.
    + split_and!; try done. eexists. split; [done|]. by repeat constructor.
    + destruct (IH (tick o)) as (? & ? & ? & es & ? & ?). split_and!; try done. by exists es.
  - split_and!; try done. eexists. split; [done|]. by repeat constructor.
Qed.

(** A successful check found every dependency among the running instances. *)
Lemma check_dependencies_true w name deps : ∀ o,
  (check_dependencies w name deps o).1 = true →
  ∀ dep, dep ∈ deps → is_Some (Dict.get dep (processes o)).
Proof.
  induction deps as [|d deps IH]; intros o Hr dep Hdep; [by apply elem_of_nil in Hdep|].
  simpl in Hr. destruct (Dict.get d (processes o)) as [info|] eqn:Hget; [|done].
  destruct (poll w (clock o) (process info)); [done|].
  apply elem_of_cons in Hdep as [->|Hdep]; [by rewrite Hget|].
  by apply (IH (tick o)).
Qed.

(** A dependency that is not a running instance fails the check. *)
Lemma check_dependencies_missing w name deps o dep :
  dep ∈ deps → Dict.get dep (processes o) = None →
  (check_dependencies w name deps o).1 = false.
Proof.
  intros Hdep Hget.
  destruct (check_dependencies w name deps o).1 eqn:Hr; [|done].
  destruct (check_dependencies_true w name deps o Hr dep Hdep) as [? ?]. congruence.
Qed.

(** ** [start_component] *)

(** The log after some more entries. *)
Lemma log_emit_app (o o' : Orchestrator) es e :
  log o' = log o ++ es → log (emit e o') = log o ++ (es ++ [e]).
Proof. intros H. simpl. by rewrite H, (assoc_L (++)). Qed.

Lemma start_component_spec w name o :
  let r := start_component w name o in
  components r.2 = components o ∧ running r.2 = running o
  ∧ (∃ es, log r.2 = log o ++ es ∧ startup_attempts es = [] ∧ stop_attempts es = []
       ∧ Dict.keys (processes r.2) = foldl track_step (Dict.keys (processes o)) es)
  ∧ (processes r.2 = processes o
     ∨ (r.1 = true ∧ Dict.get name (processes o) = None
        ∧ ∃ proc t comp, components o !! name = Some comp
            ∧ processes r.2 = processes o ++ [(name, mkProcessInfo proc t 0 comp)]))
  ∧ (r.1 = false → processes r.2 = processes o).
Proof.
  unfold start_component.
  destruct (Dict.mem name (processes o)) eqn:Hmem; simpl.
  { split_and!; try done; [|by left]. exists [AlreadyRunning name]. by split_and!. }
  apply Dict_mem_false in Hmem.
  destruct (components o !! name) as [component|] eqn:Hcomp; simpl; last first.
  { split_and!; try done; [|by left]. exists [UnknownComponent name]. by split_and!. }
  destruct (path_exists w (script component)); simpl; last first.
  { destruct (optional component); simpl.
    - split_and!; try done; [|by left]. exists [OptionalNotFound name]. by split_and!.
    - split_and!; try done; [|by left]. exists [ScriptNotFound name]. by split_and!. }
  unfold check_component_dependencies.
  pose proof (check_dependencies_frame w name (deps_of (components o) name) o) as Hfr.
  destruct (check_dependencies w name (deps_of (components o) name) o) as [ok o1].
  simpl in Hfr. destruct Hfr as (Hc1 & Hp1 & Hr1 & es1 & Hl1 & Hes1).
  pose proof (unobserved_startup_attempts _ Hes1) as Ha1.
  pose proof (unobserved_stop_attempts _ Hes1) as Hs1.
  destruct ok; simpl; last first.
  { split_and!; try done; [|by left].
    exists (es1 ++ [DependenciesNotMet name]). split_and!.
    - by apply log_emit_app.
    - by rewrite startup_attempts_app, Ha1.
    - by rewrite stop_attempts_app, Hs1.
    - rewrite Hp1, foldl_app, (unobserved_track _ es1) by done. done. }
  destruct (popen w (clock o1) (script component)) as [proc|]; simpl; last first.
  { split_and!; try done; [|by left].
    exists (es1 ++ [StartingComponent name] ++ [ErrorStarting name]). split_and!.
    - rewrite Hl1, <- !(assoc_L (++)). done.
    - by rewrite startup_attempts_app, Ha1.
    - by rewrite stop_attempts_app, Hs1.
    - rewrite Hp1, foldl_app, (unobserved_track _ es1) by done. done. }
  rewrite Hp1. rewrite (Dict_set_absent name _ (processes o)) by done.
  destruct (poll w (S (clock o1)) proc); simpl.
  - (* the process died during the startup delay *)
    rewrite <- (Dict_set_absent name _ (processes o)) by done.
    rewrite Dict_del_set_absent by done.
    split_and!; try done; [|by left].
    exists (es1 ++ [StartingComponent name] ++ [FailedToStart name]). split_and!.
    + rewrite Hl1, <- !(assoc_L (++)). done.
    + by rewrite startup_attempts_app, Ha1.
    + by rewrite stop_attempts_app, Hs1.
    + rewrite foldl_app, (unobserved_track _ es1) by done. done.
  - split_and!; try done.
    + exists (es1 ++ [StartingComponent name] ++ [StartedSuccessfully name proc]). split_and!.
      * rewrite Hl1, <- !(assoc_L (++)). done.
      * by rewrite startup_attempts_app, Ha1.
      * by rewrite stop_attempts_app, Hs1.
      * rewrite foldl_app, (unobserved_track _ es1) by done. simpl.
        unfold Dict.keys. by rewrite fmap_app.
    + right. split_and!; try done. by eexists _, _, _.
Qed.

(** ** [stop_component] *)

Lemma stop_component_spec w name o :
  let r := stop_component w name o in
  components r.2 = components o ∧ running r.2 = running o
  ∧ (∃ es, log r.2 = log o ++ es ∧ startup_attempts es = []
       ∧ stop_attempts es = (if Dict.mem name (processes o) then [name] else [])
       ∧ Dict.keys (processes r.2) = foldl track_step (Dict.keys (processes o)) es)
  ∧ (r.1 = true → processes r.2 = Dict.del name (processes o))
  ∧ (r.1 = false → processes r.2 = processes o ∧ is_Some (Dict.get name (processes o))).
Proof.
  unfold stop_component, Dict.mem.
  destruct (Dict.get name (processes o)) as [info|] eqn:Hget; simpl; last first.
  { split_and!; try done.
    - exists [NotRunning name]. by split_and!.
    - intros _. by rewrite Dict_del_absent. }
  destruct (terminate w (clock o) (process info)); simpl; last first.
  { split_and!; try (by eauto).
    exists [StoppingComponent name; ErrorStopping name].
    split_and!; try done. by rewrite <- (assoc_L (++)). }
  destruct (wait_timeout w (S (clock o)) (process info)); simpl.
  - split_and!; try done.
    exists [StoppingComponent name; Stopped name].
    split_and!; try done; [by rewrite <- (assoc_L (++))|]. by rewrite Dict_keys_del.
  - destruct (kill w (S (S (clock o))) (process info)); simpl; last first.
    { split_and!; try (by eauto).
      exists [StoppingComponent name; ForceKilling name; ErrorStopping name].
      split_and!; try done. by rewrite <- !(assoc_L (++)). }
    destruct (wait w (S (S (S (clock o)))) (process info)); simpl; last first.
    { split_and!; try (by eauto).
      exists [StoppingComponent name; ForceKilling name; ErrorStopping name].
      split_and!; try done. by rewrite <- !(assoc_L (++)). }
    split_and!; try done.
    exists [StoppingComponent name; ForceKilling name; Stopped name].
    split_and!; try done; [by rewrite <- !(assoc_L (++))|]. by rewrite Dict_keys_del.
  - split_and!; try (by eauto).
    exists [StoppingComponent name; ErrorStopping name].
    split_and!; try done. by rewrite <- (assoc_L (++)).
Qed.

(** Either way the dictionary is the old one or the old one without the
    instance. *)
Lemma stop_component_processes w name o :
  processes (stop_component w name o).2 = processes o
  ∨ processes (stop_component w name o).2 = Dict.del name (processes o).
Proof.
  destruct (stop_component_spec w name o) as (_ & _ & _ & Ht & Hf).
  destruct (stop_component w name o).1; [right; by apply Ht | left; by apply Hf].
Qed.

(** ** [restart_component] *)

Lemma increment_restart_count_keys name ps :
  Dict.keys (increment_restart_count name ps) = Dict.keys ps.
Proof.
  unfold increment_restart_count. destruct (Dict.get name ps) eqn:Hget; [|done].
  apply Dict_keys_set_present. by eauto.
Qed.

Lemma increment_restart_count_get_ne name name' ps :
  name ≠ name' → Dict.get name' (increment_restart_count name ps) = Dict.get name' ps.
Proof.
  intros Hne. unfold increment_restart_count. destruct (Dict.get name ps); [|done].
  by apply Dict_get_set_ne.
Qed.

Lemma increment_restart_count_get name ps :
  Dict.get name (increment_restart_count name ps)
  = (λ info, mkProcessInfo (process info) (start_time info) (restart_count info + 1)
               (component_info info)) <$> Dict.get name ps.
Proof.
  unfold increment_restart_count. destruct (Dict.get name ps) eqn:Hget; simpl; [|done].
  apply Dict_get_set_eq.
Qed.

Lemma Dict_get_app_ne {V} (k k' : string) (v : V) d :
  k ≠ k' → Dict.get k' (d ++ [(k, v)]) = Dict.get k' d.
Proof.
  intros Hne. induction d as [|[k'' v''] d IH]; simpl.
  - case_decide; [congruence | done].
  - by case_decide.
Qed.

(** Starting or stopping one component leaves the instances of the others
    alone. *)
Lemma start_component_get_ne w name name' o :
  name ≠ name' →
  Dict.get name' (processes (start_component w name o).2) = Dict.get name' (processes o).
Proof.
  intros Hne. destruct (start_component_spec w name o) as (_ & _ & _ & [->|Happ] & _); [done|].
  destruct Happ as (_ & _ & proc & t & comp & _ & ->). by apply Dict_get_app_ne.
Qed.

Lemma stop_component_get_ne w name name' o :
  name ≠ name' →
  Dict.get name' (processes (stop_component w name o).2) = Dict.get name' (processes o).
Proof.
  intros Hne. destruct (stop_component_processes w name o) as [->| ->]; [done|].
  by apply Dict_get_del_ne.
Qed.

(** ** How the state evolves *)

Lemma evolves_refl o : evolves o o.
Proof. split; [done|]. exists []. by rewrite app_nil_r. Qed.

Lemma evolves_trans o1 o2 o3 : evolves o1 o2 → evolves o2 o3 → evolves o1 o3.
Proof.
  intros (Hc1 & es1 & Hl1 & Hk1) (Hc2 & es2 & Hl2 & Hk2). split; [congruence|].
  exists (es1 ++ es2). rewrite Hl2, Hl1, Hk2, Hk1, foldl_app, (assoc_L (++)). done.
Qed.

Lemma evolves_emit o o' e : evolves o o' → track_neutral e → evolves o (emit e o').
Proof.
  intros (Hc & es & Hl & Hk) He. split; [done|]. exists (es ++ [e]). split.
  - by apply log_emit_app.
  - rewrite foldl_app. simpl. rewrite <- Hk. by destruct e.
Qed.

Lemma evolves_emits o o' es' : evolves o o' → Forall track_neutral es' → evolves o (emits es' o').
Proof.
  intros (Hc & es & Hl & Hk) He. split; [done|]. exists (es ++ es'). split.
  - simpl. by rewrite Hl, (assoc_L (++)).
  - rewrite foldl_app. simpl. rewrite <- Hk. clear Hk.
    induction He as [|e ? ? _ IH]; [done|]. simpl. by destruct e.
Qed.

Lemma evolves_tracked o o' : evolves o o' → tracked o → tracked o'.
Proof.
  unfold tracked. intros (_ & es & Hl & Hk) Ht.
  by rewrite Hk, Hl, actual_start_order_app, Ht.
Qed.

Lemma start_component_evolves w name o : evolves o (start_component w name o).2.
Proof.
  destruct (start_component_spec w name o) as (Hc & _ & (es & Hl & _ & _ & Hk) & _).
  split; [done|]. by exists es.
Qed.

Lemma stop_component_evolves w name o : evolves o (stop_component w name o).2.
Proof.
  destruct (stop_component_spec w name o) as (Hc & _ & (es & Hl & _ & _ & Hk) & _).
  split; [done|]. by exists es.
Qed.

Lemma restart_component_evolves w name o : evolves o (restart_component w name o).
Proof.
  unfold restart_component.
  eapply evolves_trans; [|apply start_component_evolves].
  eapply evolves_trans; [|apply stop_component_evolves].
  split; [done|]. exists [Restarting name]. split; [done|]. simpl.
  apply increment_restart_count_keys.
Qed.

Lemma check_component_health_frame w name o :
  let r := check_component_health w name o in
  components r.2 = components o ∧ processes r.2 = processes o
  ∧ running r.2 = running o ∧ log r.2 = log o.
Proof.
  unfold check_component_health.
  repeat (case_match; simpl; try done).
Qed.

Lemma check_component_health_evolves w name o : evolves o (check_component_health w name o).2.
Proof.
  destruct (check_component_health_frame w name o) as (Hc & Hp & _ & Hl).
  split; [done|]. exists []. by rewrite Hl, Hp, app_nil_r.
Qed.

Lemma monitor_components_evolves w names : ∀ failed o,
  evolves o (monitor_components w names failed o).2.
Proof.
  induction names as [|name rest IH]; intros failed o; simpl; [apply evolves_refl|].
  pose proof (check_component_health_evolves w name o) as Hh.
  destruct (check_component_health w name o) as [healthy o1]. simpl in Hh.
  destruct healthy; [by eapply evolves_trans|].
  destruct (Dict.get name (processes o1)) as [info|]; [|done].
  repeat case_decide;
    (eapply evolves_trans; [|apply IH]);
    try (eapply evolves_trans; [|apply restart_component_evolves]);
    repeat (apply evolves_emit; [|done]); done.
Qed.

Lemma monitor_iteration_evolves w o : evolves o (monitor_iteration w o).2.
Proof.
  unfold monitor_iteration.
  pose proof (monitor_components_evolves w (Dict.keys (processes o)) [] o) as H.
  destruct (monitor_components w (Dict.keys (processes o)) [] o) as [[failed|] o1]; simpl in *.
  - repeat case_match; simpl; try done; by apply evolves_emit.
  - by apply evolves_emit.
Qed.

Lemma start_loop_evolves w total order : ∀ i failed o,
  evolves o (start_loop w total i order failed o).2.
Proof.
  induction order as [|name rest IH]; intros i failed o; simpl; [apply evolves_refl|].
  destruct (components o !! name) as [component|]; [|apply evolves_refl].
  pose proof (start_component_evolves w name (emit (StartingStep i total name) o)) as Hs.
  destruct (start_component w name (emit (StartingStep i total name) o)) as [ok o1].
  simpl in Hs.
  assert (evolves o o1) as Ho1.
  { eapply evolves_trans; [|exact Hs]. apply evolves_emit; [apply evolves_refl | done]. }
  destruct ok; [by eapply evolves_trans|].
  destruct (critical component); [|by eapply evolves_trans].
  simpl. by repeat (apply evolves_emit; [|done]).
Qed.

Lemma get_startup_order_evolves w o : evolves o (get_startup_order w o).2.
Proof.
  unfold get_startup_order.
  assert (evolves o (emits (OptionalNotFound <$> removed_optionals w (components o)) o)) as H.
  { apply evolves_emits; [apply evolves_refl|].
    apply Forall_fmap, Forall_true. done. }
  destruct (resolve w (components o)) as [[ordered [unresolved|]]|]; simpl; try done.
  by apply evolves_emit.
Qed.

Lemma start_all_evolves w o : evolves o (start_all w o).2.
Proof.
  unfold start_all.
  pose proof (get_startup_order_evolves w o) as Hg.
  destruct (get_startup_order w o) as [order o1]. simpl in Hg.
  pose proof (start_loop_evolves w (length order) order 1 [] (emit (StartupOrder order) o1)) as Hl.
  destruct (start_loop w (length order) 1 order [] (emit (StartupOrder order) o1)) as [res o3].
  simpl in Hl.
  assert (evolves o o3) as Ho3.
  { eapply evolves_trans; [|exact Hl]. by apply evolves_emit. }
  destruct res as [failed| |]; simpl; try done.
  destruct failed; by repeat (apply evolves_emit; [|done]).
Qed.

Lemma stop_loop_evolves w names : ∀ o,
  evolves o (foldl (λ o' name, (stop_component w name o').2) o names).
Proof.
  induction names as [|name rest IH]; intros o; simpl; [apply evolves_refl|].
  eapply evolves_trans; [apply stop_component_evolves | apply IH].
Qed.

Lemma stop_all_evolves w o : evolves o (stop_all w o).
Proof. apply stop_loop_evolves. Qed.

Lemma run_op_evolves w o op : evolves o (run_op w o op).
Proof.
  destruct op; simpl;
    auto using start_component_evolves, stop_component_evolves, restart_component_evolves,
      start_all_evolves, stop_all_evolves, monitor_iteration_evolves.
Qed.

Lemma run_ops_evolves w ops : ∀ o, evolves o (run_ops w ops o).
Proof.
  unfold run_ops. induction ops as [|op ops IH]; intros o; simpl; [apply evolves_refl|].
  eapply evolves_trans; [apply run_op_evolves | apply IH].
Qed.

(** ** Consistency is kept *)

Lemma consistent_same_store o o' :
  components o' = components o → processes o' = processes o → consistent o → consistent o'.
Proof. unfold consistent. intros -> ->. done. Qed.

Lemma consistent_init comps : consistent (init comps).
Proof. split; [constructor | done]. Qed.

Lemma Dict_get_app_eq {V} (k : string) (v : V) d :
  Dict.get k d = None → Dict.get k (d ++ [(k, v)]) = Some v.
Proof. intros H. rewrite <- Dict_set_absent by done. apply Dict_get_set_eq. Qed.

Lemma start_component_consistent w name o :
  consistent o → consistent (start_component w name o).2.
Proof.
  intros [Hnd Hinfo].
  destruct (start_component_spec w name o) as (Hc & _ & _ & [Hp|Happ] & _).
  { by apply (consistent_same_store o). }
  destruct Happ as (_ & Hget & proc & t & comp & Hcomp & Hp).
  unfold consistent. rewrite Hp, Hc. split.
  - unfold Dict.keys. rewrite fmap_app. apply NoDup_app. split_and!; [done| |].
    + intros x Hx Hx'. apply list_elem_of_singleton in Hx'. subst x.
      by apply Dict_get_None in Hget.
    + apply NoDup_singleton.
  - intros name' info'. destruct (decide (name = name')) as [<-|Hne].
    + rewrite Dict_get_app_eq by done. by intros [= <-].
    + rewrite Dict_get_app_ne by done. apply Hinfo.
Qed.

Lemma consistent_del name o :
  consistent o → NoDup (Dict.keys (Dict.del name (processes o)))
  ∧ ∀ name' info, Dict.get name' (Dict.del name (processes o)) = Some info →
      components o !! name' = Some (component_info info).
Proof.
  intros [Hnd Hinfo]. split.
  - rewrite Dict_keys_del. by apply NoDup_filter.
  - intros name' info. destruct (decide (name = name')) as [<-|Hne].
    + by rewrite Dict_get_del_eq.
    + rewrite Dict_get_del_ne by done. apply Hinfo.
Qed.

Lemma stop_component_consistent w name o :
  consistent o → consistent (stop_component w name o).2.
Proof.
  intros Hcons. destruct (stop_component_spec w name o) as (Hc & _ & _ & _).
  destruct (stop_component_processes w name o) as [Hp|Hp].
  - by apply (consistent_same_store o).
  - unfold consistent. rewrite Hp, Hc. by apply consistent_del.
Qed.

Lemma increment_restart_count_consistent name o :
  consistent o → consistent (set_processes (increment_restart_count name (processes o)) o).
Proof.
  intros [Hnd Hinfo]. split; simpl.
  - by rewrite increment_restart_count_keys.
  - intros name' info'. destruct (decide (name = name')) as [<-|Hne].
    + rewrite increment_restart_count_get.
      destruct (Dict.get name (processes o)) as [info|] eqn:Hget; [|done].
      simpl. intros [= <-]. simpl. by apply Hinfo.
    + rewrite increment_restart_count_get_ne by done. apply Hinfo.
Qed.

Lemma restart_component_consistent w name o :
  consistent o → consistent (restart_component w name o).
Proof.
  intros Hcons. unfold restart_component.
  apply start_component_consistent, stop_component_consistent.
  apply (increment_restart_count_consistent name (emit (Restarting name) o)).
  by apply (consistent_same_store o).
Qed.

Lemma check_component_health_consistent w name o :
  consistent o → consistent (check_component_health w name o).2.
Proof.
  destruct (check_component_health_frame w name o) as (Hc & Hp & _).
  by apply consistent_same_store.
Qed.

Lemma monitor_components_consistent w names : ∀ failed o,
  consistent o → consistent (monitor_components w names failed o).2.
Proof.
  induction names as [|name rest IH]; intros failed o Hcons; simpl; [done|].
  pose proof (check_component_health_consistent w name o Hcons) as Hh.
  destruct (check_component_health w name o) as [healthy o1]. simpl in Hh.
  destruct healthy; [by apply IH|].
  destruct (Dict.get name (processes o1)) as [info|]; [|done].
  repeat case_decide; apply IH; try apply restart_component_consistent;
    by repeat (eapply consistent_same_store; [..|exact Hh]).
Qed.

Lemma monitor_iteration_consistent w o : consistent o → consistent (monitor_iteration w o).2.
Proof.
  intros Hcons. unfold monitor_iteration.
  pose proof (monitor_components_consistent w (Dict.keys (processes o)) [] o Hcons) as H.
  destruct (monitor_components w (Dict.keys (processes o)) [] o) as [[failed|] o1]; simpl in *.
  - repeat case_match; simpl; try done; by eapply consistent_same_store.
  - by eapply consistent_same_store.
Qed.

Lemma start_loop_consistent w total order : ∀ i failed o,
  consistent o → consistent (start_loop w total i order failed o).2.
Proof.
  induction order as [|name rest IH]; intros i failed o Hcons; simpl; [done|].
  destruct (components o !! name) as [component|]; [|done].
  pose proof (start_component_consistent w name (emit (StartingStep i total name) o)) as Hs.
  destruct (start_component w name (emit (StartingStep i total name) o)) as [ok o1].
  simpl in Hs. specialize (Hs Hcons).
  destruct ok; [by apply IH|].
  destruct (critical component); [|by apply IH].
  simpl. by eapply consistent_same_store.
Qed.

Lemma get_startup_order_store w o :
  components (get_startup_order w o).2 = components o
  ∧ processes (get_startup_order w o).2 = processes o.
Proof.
  unfold get_startup_order.
  destruct (resolve w (components o)) as [[ordered [unresolved|]]|]; done.
Qed.

Lemma start_all_consistent w o : consistent o → consistent (start_all w o).2.
Proof.
  intros Hcons. unfold start_all.
  pose proof (get_startup_order_store w o) as [Hc Hp].
  destruct (get_startup_order w o) as [order o1]. simpl in Hc, Hp.
  assert (consistent (emit (StartupOrder order) o1)) as Hc1
    by (by apply (consistent_same_store o)).
  pose proof (start_loop_consistent w (length order) order 1 [] _ Hc1) as Hl.
  destruct (start_loop w (length order) 1 order [] (emit (StartupOrder order) o1)) as [res o3].
  simpl in Hl.
  destruct res as [failed| |]; simpl; try done.
  destruct failed; by eapply consistent_same_store.
Qed.

Lemma stop_loop_consistent w names : ∀ o,
  consistent o → consistent (foldl (λ o' name, (stop_component w name o').2) o names).
Proof.
  induction names as [|name rest IH]; intros o Hcons; simpl; [done|].
  by apply IH, stop_component_consistent.
Qed.

Lemma run_op_consistent w o op : consistent o → consistent (run_op w o op).
Proof.
  destruct op; simpl;
    auto using start_component_consistent, stop_component_consistent,
      restart_component_consistent, start_all_consistent, monitor_iteration_consistent.
  apply stop_loop_consistent.
Qed.

Lemma run_ops_consistent w ops : ∀ o, consistent o → consistent (run_ops w ops o).
Proof.
  unfold run_ops. induction ops as [|op ops IH]; intros o Hcons; simpl; [done|].
  by apply IH, run_op_consistent.
Qed.

(** ** Shutdown *)

(** A name in the sequence of actual starts was logged as started. *)
Lemma actual_start_order_started l c :
  c ∈ actual_start_order l → ∃ pid, StartedSuccessfully c pid ∈ l.
Proof.
  induction l as [|e l IH] using rev_ind; [by intros ?%elem_of_nil|].
  rewrite actual_start_order_app. simpl. intros Hc.
  assert (c ∈ actual_start_order l ∨ ∃ pid, e = StartedSuccessfully c pid) as [Hl|[pid ->]].
  { destruct e; simpl in Hc; try (by left).
    - apply elem_of_app in Hc as [Hc|Hc]; [by left|].
      apply list_elem_of_singleton in Hc. subst. right. by eexists.
    - apply list_elem_of_filter in Hc as [_ Hc]. by left. }
  - destruct (IH Hl) as [pid Hpid]. exists pid. apply elem_of_app. by left.
  - exists pid. apply elem_of_app. right. by left.
Qed.

(** The loop of [stop_all] sets out to stop every name it is handed, in the
    order it is handed them, whatever becomes of the stops before. *)
Lemma stop_loop_attempts w names : ∀ o,
  NoDup names →
  (∀ name, name ∈ names → is_Some (Dict.get name (processes o))) →
  ∃ es, log (foldl (λ o' name, (stop_component w name o').2) o names) = log o ++ es
    ∧ stop_attempts es = names.
Proof.
  induction names as [|name rest IH]; intros o Hnd Hin; simpl.
  { exists []. by rewrite app_nil_r. }
  apply NoDup_cons in Hnd as [Hnotin Hnd].
  destruct (stop_component_spec w name o) as (_ & _ & (es1 & Hl1 & _ & Hs1 & _) & _).
  assert (Dict.mem name (processes o) = true) as Hmem.
  { apply Dict_mem_true, Hin. by left. }
  rewrite Hmem in Hs1.
  destruct (IH (stop_component w name o).2 Hnd) as (es2 & Hl2 & Hs2).
  { intros name' Hname'. rewrite stop_component_get_ne.
    - apply Hin. by right.
    - intros ->. done. }
  exists (es1 ++ es2). split.
  - by rewrite Hl2, Hl1, (assoc_L (++)).
  - by rewrite stop_attempts_app, Hs1, Hs2.
Qed.

Lemma stop_all_attempts w o :
  consistent o →
  ∃ es, log (stop_all w o) = log o ++ es
    ∧ stop_attempts es = reverse (Dict.keys (processes o)).
Proof.
  intros [Hnd _]. apply stop_loop_attempts.
  - by rewrite reverse_Permutation.
  - intros name Hname. rewrite elem_of_reverse in Hname.
    destruct (Dict.get name (processes o)) eqn:Hget; [by eauto|].
    apply Dict_get_None in Hget. by destruct Hget.
Qed.

(** Every state of a run is consistent and tracked. *)
Lemma run_consistent w comps ops : consistent (run_ops w ops (init comps)).
Proof. apply run_ops_consistent, consistent_init. Qed.

Lemma run_tracked w comps ops : tracked (run_ops w ops (init comps)).
Proof. eapply evolves_tracked; [apply run_ops_evolves | done]. Qed.

(** ** Startup *)

Lemma start_loop_app w total l1 l2 : ∀ i failed o,
  start_loop w total i (l1 ++ l2) failed o =
    match start_loop w total i l1 failed o with
    | (LoopDone failed', o1) => start_loop w total (i + length l1) l2 failed' o1
    | r => r
    end.
Proof.
  induction l1 as [|name l1 IH]; intros i failed o; simpl.
  { by rewrite Nat.add_0_r. }
  destruct (components o !! name) as [component|]; [|done].
  destruct (start_component w name (emit (StartingStep i total name) o)) as [ok o1].
  replace (i + S (length l1)) with (S i + length l1) by lia.
  destruct ok; [apply IH|]. destruct (critical component); [done | apply IH].
Qed.

(** A loop that ran through announced every component of its list. *)
Lemma start_loop_done_attempts w total l : ∀ i failed o failed' o1,
  start_loop w total i l failed o = (LoopDone failed', o1) →
  startup_attempts (log o1) = startup_attempts (log o) ++ l.
Proof.
  induction l as [|name l IH]; intros i failed o failed' o1; simpl.
  { intros [= _ <-]. by rewrite app_nil_r. }
  destruct (components o !! name) as [component|]; [|done].
  destruct (start_component_spec w name (emit (StartingStep i total name) o))
    as (_ & _ & (es & Hl & Ha & _) & _).
  destruct (start_component w name (emit (StartingStep i total name) o)) as [ok o'].
  simpl in Hl.
  assert (startup_attempts (log o') = startup_attempts (log o) ++ [name]) as Hatt.
  { by rewrite Hl, !startup_attempts_app, Ha, app_nil_r. }
  assert (∀ f, start_loop w total (S i) l f o' = (LoopDone failed', o1) →
     startup_attempts (log o1) = startup_attempts (log o) ++ name :: l) as Hrest.
  { intros f Hf. apply IH in Hf. rewrite Hf, Hatt, <- (assoc_L (++)). done. }
  destruct ok; [apply Hrest|]. destruct (critical component); [done | apply Hrest].
Qed.

Lemma get_startup_order_attempts w o :
  startup_attempts (log (get_startup_order w o).2) = startup_attempts (log o).
Proof.
  unfold get_startup_order.
  assert (startup_attempts (OptionalNotFound <$> removed_optionals w (components o)) = [])
    as Hopt by (by induction (removed_optionals w (components o))).
  destruct (resolve w (components o)) as [[ordered [unresolved|]]|]; simpl;
    rewrite ?startup_attempts_app, Hopt; simpl; by rewrite ?app_nil_r.
Qed.

(** C7. Let the startup order be [pre ++ c :: post] with [c] critical, let the
    loop of [start_all] have run through [pre] (no critical failure there)
    and reached the state [o1], and let the start of [c] fail in that state.
    Then [start_all] returns [False]; the running-instance dictionary it
    leaves is the one of [o1], so what was started before stays as it was;
    and the components it announced are those of [pre] and then [c], none of
    [post]. *)
Theorem critical_failure_aborts_startup (w : World) (o : Orchestrator)
    (pre post failed : list string) (c : string) (comp : Component) (o1 : Orchestrator) :
  let order := (get_startup_order w o).1 in
  let o0 := emit (StartupOrder order) (get_startup_order w o).2 in
  order = pre ++ c :: post →
  components o !! c = Some comp →
  critical comp = true →
  start_loop w (length order) 1 pre [] o0 = (LoopDone failed, o1) →
  (start_component w c (emit (StartingStep (S (length pre)) (length order) c) o1)).1 = false →
  ∃ o2, start_all w o = (Some false, o2)
    ∧ processes o2 = processes o1
    ∧ startup_attempts (log o2) = startup_attempts (log o) ++ pre ++ [c].
Proof.
  pose proof (get_startup_order_store w o) as [Hcg _].
  pose proof (get_startup_order_attempts w o) as Hag.
  unfold start_all.
  destruct (get_startup_order w o) as [order og]. simpl in Hcg, Hag. simpl.
  intros Horder Hcomp Hcrit Hpre Hfail.
  pose proof (start_loop_done_attempts _ _ _ _ _ _ _ _ Hpre) as Hatt.
  pose proof (start_loop_evolves w (length order) pre 1 [] (emit (StartupOrder order) og))
    as [Hc1 _].
  rewrite Hpre in Hc1. simpl in Hc1, Hatt.
  rewrite startup_attempts_app in Hatt. simpl in Hatt. rewrite app_nil_r, Hag in Hatt.
  set (oc := emit (StartingStep (S (length pre)) (length order) c) o1) in *.
  assert (start_loop w (length order) 1 (pre ++ c :: post) [] (emit (StartupOrder order) og)
          = (LoopAborted,
             emit AbortingStartup (emit (CriticalFailedToStart c) (start_component w c oc).2)))
    as Hloop.
  { rewrite start_loop_app, Hpre. simpl. rewrite Hc1, Hcg, Hcomp.
    change (1 + length pre) with (S (length pre)). fold oc.
    destruct (start_component w c oc) as [ok o']. simpl in Hfail. subst ok.
    by rewrite Hcrit. }
  rewrite <- Horder in Hloop. rewrite Hloop.
  destruct (start_component_spec w c oc) as (_ & _ & (es & Hl & Ha & _) & _ & Hfalse).
  eexists. split; [done|]. simpl. split.
  - by apply Hfalse.
  - rewrite !startup_attempts_app. simpl. rewrite !app_nil_r.
    rewrite Hl, !startup_attempts_app, Ha. simpl. rewrite startup_attempts_app, Hatt. simpl.
    by rewrite app_nil_r, <- (assoc_L (++)).
Qed.

Lemma critical_failure_aborts_startup_witness :
  ∃ o2, start_all c_dies_world (init abcd_components) = (Some false, o2)
    ∧ Dict.keys (processes o2) = ["a"; "b"]
    ∧ startup_attempts (log o2) = ["a"; "b"; "c"].
Proof.
  destruct (critical_failure_aborts_startup c_dies_world (init abcd_components)
              ["a"; "b"] ["d"] [] "c"
              (mkComponent "ccc.py" None None ["a"; "b"] true "manual" 0 false)
              (start_loop c_dies_world 4 1 ["a"; "b"] []
                 (emit (StartupOrder ["a"; "b"; "c"; "d"])
                    (get_startup_order c_dies_world (init abcd_components)).2)).2)
    as (o2 & Hall & Hproc & Hatt); try (vm_compute; reflexivity).
  exists o2. split; [exact Hall|]. split.
  - rewrite Hproc. vm_compute. reflexivity.
  - exact Hatt.
Defined.

(** ** [stop_component] and the running map *)

(** With [a] running and [terminate] raising, [stop_component] returns [False]
    and [a] is still a key of the running map. *)
Lemma stop_component_keeps_instance_on_error :
  let o := (start_component stubborn_world "a" (init abcd_components)).2 in
  Dict.keys (processes o) = ["a"]
  ∧ (stop_component stubborn_world "a" o).1 = false
  ∧ Dict.keys (processes (stop_component stubborn_world "a" o).2) = ["a"].
Proof. vm_compute. done. Qed.

(** C6, as the code has it. [stop_component] on a name that is not running
    returns [True] and changes nothing but the log.  On a running instance it
    returns [True] and the instance is gone from the running map exactly when
    none of [terminate], [wait] and [kill] raises; when one of them raises it
    returns [False] and the running map is as it was, the instance still in
    it. *)
Theorem stop_component_removes_unless_error (w : World) (name : string) (o : Orchestrator) :
  match Dict.get name (processes o) with
  | None => stop_component w name o = (true, emit (NotRunning name) o)
  | Some info =>
      if stop_raises w (clock o) (process info)
      then (stop_component w name o).1 = false
           ∧ processes (stop_component w name o).2 = processes o
      else (stop_component w name o).1 = true
           ∧ processes (stop_component w name o).2 = Dict.del name (processes o)
           ∧ Dict.get name (processes (stop_component w name o).2) = None
  end.
Proof.
  unfold stop_component, stop_raises.
  destruct (Dict.get name (processes o)) as [info|]; [|done]. simpl.
  destruct (terminate w (clock o) (process info)); simpl; [|done].
  destruct (wait_timeout w (S (clock o)) (process info)); simpl; [|  |done].
  - split_and!; try done. apply Dict_get_del_eq.
  - destruct (kill w (S (S (clock o))) (process info)); simpl; [|done].
    destruct (wait w (S (S (S (clock o)))) (process info)); simpl; [|done].
    split_and!; try done. apply Dict_get_del_eq.
Qed.

(** ** The monitor loop *)

Lemma restart_component_get_ne w name name' o :
  name ≠ name' →
  Dict.get name' (processes (restart_component w name o)) = Dict.get name' (processes o).
Proof.
  intros Hne. unfold restart_component.
  rewrite start_component_get_ne, stop_component_get_ne by done. simpl.
  by apply increment_restart_count_get_ne.
Qed.

Lemma monitor_components_failed w names : ∀ failed o failed' o',
  NoDup names →
  monitor_components w names failed o = (Some failed', o') →
  ∀ c, c ∈ failed' → c ∈ failed ∨ (c ∈ names ∧ failed_by_policy w o c).
Proof.
  induction names as [|name rest IH]; intros failed o failed' o' Hnd; simpl.
  { intros [= <- <-] c Hc. by left. }
  apply NoDup_cons in Hnd as [Hnotin Hnd].
  pose proof (check_component_health_frame w name o) as (_ & Hp1 & _).
  destruct (check_component_health w name o) as [healthy o1] eqn:Hhealth. simpl in Hp1.
  assert (∀ o2 failed2, (∀ c, c ≠ name → Dict.get c (processes o2) = Dict.get c (processes o)) →
    monitor_components w rest failed2 o2 = (Some failed', o') →
    ∀ c, c ∈ failed' → c ∈ failed2 ∨ (c ∈ name :: rest ∧ failed_by_policy w o c)) as Hrest.
  { intros o2 failed2 Hsame Hrun c Hc.
    destruct (IH _ _ _ _ Hnd Hrun c Hc) as [Hf|[Hin (info & oc & Hget & Hrem)]]; [by left|].
    right. split; [by right|]. exists info, oc. split; [|done].
    rewrite <- Hsame; [done|]. by intros ->. }
  destruct healthy.
  { intros Hrun c Hc. eapply Hrest; [|exact Hrun|exact Hc]. intros. by rewrite Hp1. }
  destruct (Dict.get name (processes o1)) as [info|] eqn:Hget; [|done].
  assert (∀ c, c ∈ failed ++ [name] →
            restart_policy (component_info info) ≠ "always" →
            (restart_policy (component_info info) = "on_failure" → 3 ≤ restart_count info) →
            c ∈ failed ∨ (c ∈ name :: rest ∧ failed_by_policy w o c)) as Hnew.
  { intros c Hc Hna Hof. apply elem_of_app in Hc as [Hc|Hc]; [by left|].
    apply list_elem_of_singleton in Hc. subst c. right. split; [by left|].
    exists info, o. rewrite <- Hp1, Hhealth. by split_and!. }
  assert (∀ e1 e2 c', c' ≠ name →
            Dict.get c' (processes (restart_component w name (emit e1 (emit e2 o1))))
            = Dict.get c' (processes o)) as Hrestart.
  { intros e1 e2 c' Hc'. rewrite restart_component_get_ne by done. simpl. by rewrite Hp1. }
  case_decide as Halways.
  { intros Hrun c Hc. eapply Hrest; [|exact Hrun|exact Hc]. apply Hrestart. }
  case_decide as Honfail.
  - simpl. case_decide as Hcount.
    + intros Hrun c Hc. eapply Hrest; [|exact Hrun|exact Hc]. apply Hrestart.
    + intros Hrun c Hc.
      edestruct Hrest as [Hf|Hr]; [|exact Hrun|exact Hc| |by right].
      * intros c' _. simpl. by rewrite Hp1.
      * apply Hnew; [done..|]. intros _. lia.
  - intros Hrun c Hc.
    edestruct Hrest as [Hf|Hr]; [|exact Hrun|exact Hc| |by right].
    + intros c' _. simpl. by rewrite Hp1.
    + by apply Hnew.
Qed.

(** No alert is raised by the supervisor operations themselves. *)
Lemma start_component_alerts w name o :
  alerts (log (start_component w name o).2) = alerts (log o).
Proof.
  unfold start_component, check_component_dependencies.
  destruct (check_dependencies_frame w name (deps_of (components o) name) o)
    as (_ & _ & _ & es & Hl & Hes%unobserved_alerts).
  destruct (check_dependencies w name (deps_of (components o) name) o) as [ok o1].
  simpl in Hl.
  repeat (case_match; simpl; try done);
    rewrite ?alerts_app, ?Hl, ?alerts_app, ?Hes; simpl; by rewrite ?app_nil_r.
Qed.

Lemma stop_component_alerts w name o :
  alerts (log (stop_component w name o).2) = alerts (log o).
Proof.
  unfold stop_component.
  repeat (case_match; simpl; try done); rewrite ?alerts_app; simpl; by rewrite ?app_nil_r.
Qed.

Lemma restart_component_alerts w name o :
  alerts (log (restart_component w name o)) = alerts (log o).
Proof.
  unfold restart_component. rewrite start_component_alerts, stop_component_alerts. simpl.
  rewrite alerts_app. simpl. by rewrite app_nil_r.
Qed.

Lemma monitor_components_alerts w names : ∀ failed o,
  alerts (log (monitor_components w names failed o).2) = alerts (log o).
Proof.
  induction names as [|name rest IH]; intros failed o; simpl; [done|].
  pose proof (check_component_health_frame w name o) as (_ & _ & _ & Hl).
  destruct (check_component_health w name o) as [healthy o1]. simpl in Hl.
  destruct healthy; [by rewrite IH, Hl|].
  destruct (Dict.get name (processes o1)) as [info|]; [|simpl; by rewrite Hl].
  repeat case_decide; rewrite IH, ?restart_component_alerts; simpl;
    rewrite ?alerts_app, Hl; simpl; by rewrite ?app_nil_r.
Qed.

(** C10. In a monitor pass over any state [o] that a run reaches, whatever the
    restarts do: every component on the failed list of the pass is a running
    instance whose probe failed and whose restart policy is not ['always'],
    and is ['on_failure'] only with a restart counter of at least 3; and every
    component that an alert of the pass names is critical and on that failed
    list, so it has policy ['manual'] (or any other unknown policy) or
    ['on_failure'] at the ceiling, never ['always']. *)
Theorem always_policy_never_alerts (w : World) (comps : gmap string Component)
    (ops : list Op) :
  let o := run_ops w ops (init comps) in
  (∀ failed, (monitor_iteration w o).1 = Some failed →
     ∀ c, c ∈ failed → failed_by_policy w o c)
  ∧ ∃ es, log (monitor_iteration w o).2 = log o ++ es
      ∧ ∀ cs c, cs ∈ alerts es → c ∈ cs →
          is_critical (components o) c = true
          ∧ (∃ failed, (monitor_iteration w o).1 = Some failed ∧ c ∈ failed)
          ∧ failed_by_policy w o c.
Proof.
  intros o. pose proof (run_consistent w comps ops) as [Hnd _]. fold o in Hnd.
  unfold monitor_iteration.
  pose proof (monitor_components_failed w (Dict.keys (processes o)) [] o) as Hfailed.
  pose proof (monitor_components_alerts w (Dict.keys (processes o)) [] o) as Halerts.
  pose proof (monitor_components_evolves w (Dict.keys (processes o)) [] o) as (_ & es & Hl & _).
  destruct (monitor_components w (Dict.keys (processes o)) [] o) as [[failed|] o1];
    simpl in Halerts, Hl.
  2:{ split; [done|]. exists (es ++ [MonitorError]). split; [by apply log_emit_app|].
      rewrite Hl, alerts_app in Halerts.
      intros cs c Hcs. rewrite alerts_app in Hcs. simpl in Hcs. rewrite app_nil_r in Hcs.
      apply (f_equal length) in Halerts. rewrite length_app in Halerts.
      destruct (alerts es); [by apply elem_of_nil in Hcs | simpl in Halerts; lia]. }
  assert (∀ c, c ∈ failed → failed_by_policy w o c) as Hpol.
  { intros c Hc. destruct (Hfailed failed o1 Hnd eq_refl c Hc) as [Hf|[_ Hf]]; [|done].
    by apply elem_of_nil in Hf. }
  assert (alerts es = []) as Hes.
  { rewrite Hl, alerts_app in Halerts. apply (f_equal length) in Halerts.
    rewrite length_app in Halerts. destruct (alerts es); [done | simpl in Halerts; lia]. }
  destruct (forallb _ failed); simpl.
  2:{ split; [done|]. exists (es ++ [MonitorError]). split; [by apply log_emit_app|].
      intros cs c Hcs. rewrite alerts_app, Hes in Hcs. by apply elem_of_nil in Hcs. }
  destruct (filter (λ c, is_critical (components o) c) failed) as [|c0 cs0] eqn:Hcrit; simpl.
  - split; [by intros ? [= <-]|]. exists es. split; [done|].
    intros cs c Hcs. rewrite Hes in Hcs. by apply elem_of_nil in Hcs.
  - split; [by intros ? [= <-]|]. exists (es ++ [CriticalAlert (c0 :: cs0)]).
    split; [by apply log_emit_app|].
    intros cs c Hcs Hc. rewrite alerts_app, Hes in Hcs. simpl in Hcs.
    apply list_elem_of_singleton in Hcs. subst cs. rewrite <- Hcrit in Hc.
    apply list_elem_of_filter in Hc as [Hc Hin].
    split_and!; [by apply Is_true_true | by exists failed | by apply Hpol].
Qed.

(** ** Resolution of an acyclic registry *)

Lemma ranked_acyclic comps act rank : ranked comps act rank = true → acyclic comps act.
Proof.
  intros Hr. unfold acyclic, on_cycle.
  apply ranked_no_cycle with (rank := rank). intros c d (Hc & Hd & Hdep).
  unfold ranked in Hr. apply Is_true_true in Hr.
  rewrite forallb_True, Forall_forall in Hr. specialize (Hr c Hc).
  rewrite forallb_True, Forall_forall in Hr. specialize (Hr d Hdep).
  rewrite orb_True, negb_True, !bool_decide_spec in Hr. tauto.
Qed.

Lemma deps_all_present_spec comps act :
  deps_all_present comps act = true → deps_present comps act.
Proof.
  intros Hp c d Hc Hd. unfold deps_all_present in Hp. apply Is_true_true in Hp.
  rewrite forallb_True, Forall_forall in Hp. specialize (Hp c Hc).
  rewrite forallb_True, Forall_forall in Hp. specialize (Hp d Hd).
  by rewrite bool_decide_spec in Hp.
Qed.

(** C4. For a registry whose set of keys is iterated key by key, whose
    dependency graph over the non-excluded components has no cycle and in
    which every dependency of a non-excluded component is a non-excluded
    component: the resolver loop returns within as many passes as there are
    non-excluded components and logs no error; [get_startup_order] returns an
    order without repetition whose members are exactly the non-excluded
    components of the registry; and in it every component stands strictly
    after each of its dependencies. *)
Theorem startup_order_respects_dependencies (w : World) (o : Orchestrator) :
  set_iter w (dom (components o)) ≡ₚ elements (dom (components o)) →
  acyclic (components o) (active_components w (components o)) →
  deps_present (components o) (active_components w (components o)) →
  ∃ order,
    resolve w (components o) = Some (order, None)
    ∧ (get_startup_order w o).1 = order
    ∧ NoDup order
    ∧ (∀ c, c ∈ order ↔
         ∃ comp, components o !! c = Some comp ∧ is_excluded w comp = false)
    ∧ (∀ c d, c ∈ order → d ∈ deps_of (components o) c → appears_before order d c).
Proof.
  intros Hiter Hacyc Hpres.
  destruct (resolve_spec w (components o)) as (order & res & Hres & Hperm & Hord & Hstuck).
  destruct res as [u|].
  { (* names left unresolved would contain a cycle *)
    destruct (Hstuck u eq_refl) as [Hne Hsucc]. exfalso.
    assert (∀ c, c ∈ u → c ∈ active_components w (components o)) as Hu.
    { intros c Hc. rewrite <- Hperm. apply elem_of_app. by right. }
    destruct (closed_set_has_cycle
                (dep_edge (components o) (active_components w (components o))) u Hne)
      as (x & _ & Hx).
    - intros c Hc. destruct (Hsucc c Hc) as (d & Hd & Hdep). exists d.
      split; [done|]. split_and!; auto.
    - by apply (Hacyc x). }
  simpl in Hperm. rewrite app_nil_r in Hperm.
  exists order. split_and!.
  - done.
  - by rewrite (get_startup_order_resolve w o order None).
  - rewrite Hperm. by apply NoDup_active.
  - intros c. rewrite Hperm. by apply elem_of_active.
  - intros c d Hc Hd. apply Hord; [done..|]. apply (Hpres c); [|done]. by rewrite <- Hperm.
Qed.

Lemma startup_order_respects_dependencies_witness :
  ∃ order,
    resolve calm_world abcd_components = Some (order, None)
    ∧ (get_startup_order calm_world (init abcd_components)).1 = order
    ∧ NoDup order
    ∧ (∀ c, c ∈ order ↔
         ∃ comp, abcd_components !! c = Some comp ∧ is_excluded calm_world comp = false)
    ∧ (∀ c d, c ∈ order → d ∈ deps_of abcd_components c → appears_before order d c).
Proof.
  apply (startup_order_respects_dependencies calm_world (init abcd_components)).
  - reflexivity.
  - apply (ranked_acyclic _ _ (λ c, length (filter (λ x, String.ltb x c) ["a"; "b"; "c"; "d"]))).
    vm_compute. reflexivity.
  - apply deps_all_present_spec. vm_compute. reflexivity.
Defined.

(** ** Resolution of a registry with a cycle or a missing dependency *)

(** With a cycle, [get_startup_order] returns the part it could order and logs
    the rest, and [start_all] goes on with that part and returns [True]; with
    a dependency that is not in the registry, the resolver orders the
    component and logs nothing. *)
Lemma cycle_or_missing_dependency_not_fatal :
  (get_startup_order calm_world (init cyclic_components)).1 = ["a"]
  ∧ log (get_startup_order calm_world (init cyclic_components)).2
    = [CircularOrMissing ["y"; "z"; "x"]]
  ∧ (start_all calm_world (init cyclic_components)).1 = Some true
  ∧ Dict.keys (processes (start_all calm_world (init cyclic_components)).2) = ["a"]
  ∧ (get_startup_order calm_world (init ghost_components)).1 = ["z"]
  ∧ log (get_startup_order calm_world (init ghost_components)).2 = [].
Proof. vm_compute. done. Qed.

Lemma start_all_announces w o :
  StartupOrder (get_startup_order w o).1 ∈ log (start_all w o).2.
Proof.
  unfold start_all. destruct (get_startup_order w o) as [order og]. simpl.
  pose proof (start_loop_evolves w (length order) order 1 [] (emit (StartupOrder order) og))
    as (_ & es & Hl & _).
  destruct (start_loop w (length order) 1 order [] (emit (StartupOrder order) og)) as [res o3].
  simpl in Hl.
  assert (StartupOrder order ∈ log o3) as Hin.
  { rewrite Hl. apply elem_of_app. left. apply elem_of_app. right. by left. }
  destruct res as [failed| |]; simpl; try done.
  destruct failed; simpl; repeat (apply elem_of_app; left); done.
Qed.

(** ** The order inside one pass of the resolver *)

(** With the set iterated as [b], [a], the resolver returns [b] before [a]
    although both have the same delay and [a] is the smaller name; with the
    set iterated as [a], [b], the same registry gives the other order. *)
Lemma equal_delay_order_follows_set_iteration :
  set_iter mirror_world (dom tie_components) = ["b"; "a"]
  ∧ (get_startup_order mirror_world (init tie_components)).1 = ["b"; "a"]
  ∧ set_iter calm_world (dom tie_components) = ["a"; "b"]
  ∧ (get_startup_order calm_world (init tie_components)).1 = ["a"; "b"].
Proof. vm_compute. done. Qed.

Lemma resolve_same_inputs (w1 w2 : World) (comps : gmap string Component) :
  set_iter w1 (dom comps) = set_iter w2 (dom comps) →
  (∀ c comp, comps !! c = Some comp → path_exists w1 (script comp) = path_exists w2 (script comp)) →
  resolve w1 comps = resolve w2 comps.
Proof.
  intros Hiter Hpath. unfold resolve.
  assert (active_components w1 comps = active_components w2 comps) as ->; [|done].
  unfold active_components. rewrite Hiter. apply list_filter_iff. intros c.
  unfold excluded_name, is_excluded. destruct (comps !! c) as [comp|] eqn:Hc; [|done].
  by rewrite (Hpath c comp Hc).
Qed.

(** C9, as the code has it. In a pass of the resolver loop that finds
    components ready, the batch appended to the order is the ready list
    sorted by startup delay alone: it is a permutation of the ready list, it
    is ascending in the delay, and components of equal delay keep the order
    they have in the ready list, which is the order in which the iteration
    over the remaining set meets them.  The order returned is therefore a
    function of the registry, of which launch targets exist and of the
    iteration order of the set of names. *)
Theorem ready_batch_sorted_by_delay_only (w1 w2 : World) (o : Orchestrator) (fuel : nat)
    (ordered remaining : list string) :
  let comps := components o in
  let ready := ready_components comps ordered remaining in
  let batch := sort_by_delay comps ready in
  (ready = [] ∨
   startup_loop comps (S fuel) ordered remaining
   = startup_loop comps fuel (ordered ++ batch) (list_difference remaining batch))
  ∧ batch ≡ₚ ready
  ∧ StronglySorted (delay_le comps) batch
  ∧ (∀ d : Z, filter (λ c, delay_of comps c = d) batch
              = filter (λ c, delay_of comps c = d) ready)
  ∧ ready `sublist_of` remaining
  ∧ (set_iter w1 (dom comps) = set_iter w2 (dom comps) →
     (∀ c comp, comps !! c = Some comp →
        path_exists w1 (script comp) = path_exists w2 (script comp)) →
     (get_startup_order w1 o).1 = (get_startup_order w2 o).1).
Proof.
  intros comps ready batch. split_and!.
  - destruct ready as [|r rs] eqn:Hready; [by left|]. right.
    rewrite startup_loop_unfold.
    + fold ready. by rewrite Hready.
    + intros ->. done.
  - apply sort_by_delay_perm.
  - apply sort_by_delay_sorted.
  - intros d. apply sort_by_delay_stable.
  - apply sublist_filter.
  - intros Hiter Hpath. unfold get_startup_order.
    rewrite (resolve_same_inputs w1 w2 (components o) Hiter Hpath).
    by destruct (resolve w2 (components o)) as [[? [?|]]|].
Qed.

(** ** The restart counter *)

(** A restart whose stop goes through leaves the restart counter at [0]: the
    incremented instance is deleted by [stop_component] and [start_component]
    records a new one. *)
Lemma restart_component_resets_counter w name o info :
  (stop_component w name
     (set_processes (increment_restart_count name (processes o)) (emit (Restarting name) o))).1
    = true →
  Dict.get name (processes (restart_component w name o)) = Some info →
  restart_count info = 0.
Proof.
  unfold restart_component. simpl.
  set (o2 := set_processes _ _). intros Hstop Hget.
  destruct (stop_component_spec w name o2) as (_ & _ & _ & Hdel & _).
  specialize (Hdel Hstop).
  assert (Dict.get name (processes (stop_component w name o2).2) = None) as Hnone.
  { rewrite Hdel. apply Dict_get_del_eq. }
  destruct (start_component_spec w name (stop_component w name o2).2)
    as (_ & _ & _ & [Hsame|Happ] & _).
  - rewrite Hsame in Hget. congruence.
  - destruct Happ as (_ & _ & proc & t & comp & _ & Hp). rewrite Hp in Hget.
    rewrite Dict_get_app_eq in Hget by done. by injection Hget as <-.
Qed.

(** C1, at a failing input. The service is unhealthy on every probe. After
    three passes of the monitor loop it has been restarted three times and
    its counter reads [0]; the fourth and fifth pass restart it again with an
    empty failed list, and the restart limit is never reported. *)
Lemma on_failure_restarts_beyond_ceiling :
  let o0 := (start_all deaf_world (init svc_components)).2 in
  let o3 := monitor_loop deaf_world 3 o0 in
  let o5 := monitor_loop deaf_world 5 o0 in
  restarts_of "svc" (log o3) = 3
  ∧ restart_count <$> Dict.get "svc" (processes o3) = Some 0
  ∧ (check_component_health deaf_world "svc" o3).1 = false
  ∧ (monitor_iteration deaf_world o3).1 = Some []
  ∧ restarts_of "svc" (log (monitor_iteration deaf_world o3).2) = 4
  ∧ restarts_of "svc" (log o5) = 5
  ∧ filter (λ e, e = ExceededRestartLimit "svc") (log o5) = [].
Proof. vm_compute. done. Qed.

(** C2, at a failing input. [a] is started, restarted with a stop that raises
    (the instance stays and its counter reads [1]) and restarted again with a
    stop that goes through: the counter of the supervised component reads
    [0], [1] and then [0].  In the calm world one restart leaves it at [0]:
    the increment is lost with the deleted instance. *)
Lemma restart_counter_decreases :
  let o1 := (start_component flaky_world "a" (init abcd_components)).2 in
  let o2 := restart_component flaky_world "a" o1 in
  let o3 := restart_component flaky_world "a" o2 in
  let c1 := (start_component calm_world "a" (init abcd_components)).2 in
  restart_count <$> Dict.get "a" (processes o1) = Some 0
  ∧ restart_count <$> Dict.get "a" (processes o2) = Some 1
  ∧ restart_count <$> Dict.get "a" (processes o3) = Some 0
  ∧ restart_count <$> Dict.get "a" (processes (restart_component calm_world "a" c1)) = Some 0.
Proof. vm_compute. done. Qed.

(** ** Optional components as dependencies *)

(** [start_component] fails as soon as one dependency is not a running
    instance, whatever the reason it is not. *)
Lemma start_component_needs_every_dependency w name dep o comp :
  Dict.get name (processes o) = None →
  components o !! name = Some comp →
  path_exists w (script comp) = true →
  dep ∈ dependencies comp →
  Dict.get dep (processes o) = None →
  (start_component w name o).1 = false.
Proof.
  intros Hname Hcomp Hpath Hdep Hget. unfold start_component.
  apply Dict_mem_false in Hname. rewrite Hname, Hcomp, Hpath. simpl.
  pose proof (check_dependencies_missing w name (deps_of (components o) name) o dep) as Hm.
  unfold check_component_dependencies.
  destruct (check_dependencies w name (deps_of (components o) name) o) as [ok o1].
  simpl in Hm. rewrite Hm; [done| |done]. unfold deps_of. by rewrite Hcomp.
Qed.

(** C5, at a failing input: the registry of the source with the script of
    [data_processor] absent. The resolver leaves [data_processor] out of the
    plan and plans [model_trainer], which depends on it; [start_all] then
    fails to start [model_trainer] because [data_processor] is not running,
    and returns [False]. *)
Lemma excluded_optional_dependency_blocks_dependent :
  let w := no_data_processor_world in
  let order := (get_startup_order w (init default_components)).1 in
  let r := start_all w (init default_components) in
  bool_decide ("data_processor" ∈ order) = false
  ∧ bool_decide ("model_trainer" ∈ order) = true
  ∧ r.1 = Some false
  ∧ bool_decide (DependencyNotRunning "data_processor" "model_trainer" ∈ log r.2) = true
  ∧ bool_decide (DependenciesNotMet "model_trainer" ∈ log r.2) = true
  ∧ Dict.mem "model_trainer" (processes r.2) = false
  ∧ length (processes r.2) = 12.
Proof. vm_compute. done. Qed.

(** * Further properties of the orchestrator *)

(** ** The resolver on arbitrary registries *)

(** X1. For every registry and world, also with cycles or with dependencies
    on unknown names, the resolver loop returns within as many passes as
    there are non-excluded components, and the names it ordered together with
    the names it left unresolved are the non-excluded names, each as often as
    the set iteration lists it. *)
Theorem resolver_always_returns (w : World) (comps : gmap string Component) :
  ∃ ordered res,
    resolve w comps = Some (ordered, res)
    ∧ ordered ++ default [] res ≡ₚ active_components w comps.
Proof.
  destruct (resolve_spec w comps) as (ordered & res & Hres & Hperm & _).
  by exists ordered, res.
Qed.

Lemma get_startup_order_fst w o ordered res :
  resolve w (components o) = Some (ordered, res) → (get_startup_order w o).1 = ordered.
Proof. intros H. by rewrite (get_startup_order_resolve w o ordered res). Qed.

(** X2. Whatever the registry, the order [get_startup_order] returns never
    repeats a component, and each of its members is a key of the registry
    that is not an optional component without a script. *)
Theorem startup_order_lists_registered_components_once (w : World) (o : Orchestrator) :
  set_iter w (dom (components o)) ≡ₚ elements (dom (components o)) →
  NoDup (get_startup_order w o).1
  ∧ ∀ c, c ∈ (get_startup_order w o).1 →
      ∃ comp, components o !! c = Some comp ∧ is_excluded w comp = false.
Proof.
  intros Hiter.
  destruct (resolve_spec w (components o)) as (ordered & res & Hres & Hperm & _).
  rewrite (get_startup_order_fst w o ordered res Hres).
  pose proof (NoDup_active w (components o) Hiter) as Hnd. rewrite <- Hperm in Hnd.
  apply NoDup_app in Hnd as (Hnd & _ & _). split; [done|].
  intros c Hc. apply (elem_of_active w (components o) Hiter).
  rewrite <- Hperm. apply elem_of_app. by left.
Qed.

Lemma startup_order_lists_registered_components_once_witness :
  NoDup (get_startup_order calm_world (init cyclic_components)).1
  ∧ ∀ c, c ∈ (get_startup_order calm_world (init cyclic_components)).1 →
      ∃ comp, cyclic_components !! c = Some comp ∧ is_excluded calm_world comp = false.
Proof.
  apply (startup_order_lists_registered_components_once calm_world (init cyclic_components)).
  reflexivity.
Defined.

(** X3. A non-excluded component none of whose dependencies is a non-excluded
    component is always in the returned order: dependencies on excluded
    optional components and on names that the registry does not have count
    as satisfied, and no cycle elsewhere keeps such a component out. *)
Theorem component_without_active_dependency_is_ordered (w : World) (o : Orchestrator)
    (c : string) :
  c ∈ active_components w (components o) →
  (∀ d, d ∈ deps_of (components o) c → d ∉ active_components w (components o)) →
  c ∈ (get_startup_order w o).1.
Proof.
  intros Hc Hdeps.
  destruct (resolve_spec w (components o)) as (ordered & res & Hres & Hperm & _ & Hstuck).
  rewrite (get_startup_order_fst w o ordered res Hres).
  rewrite <- Hperm in Hc. apply elem_of_app in Hc as [Hc|Hc]; [done|].
  destruct res as [u|]; simpl in Hc; [|by apply elem_of_nil in Hc].
  destruct (Hstuck u eq_refl) as [_ Hsucc].
  destruct (Hsucc c Hc) as (d & Hd & Hdep).
  destruct (Hdeps d Hdep). rewrite <- Hperm. apply elem_of_app. by right.
Qed.

Lemma component_without_active_dependency_is_ordered_witness :
  "z" ∈ (get_startup_order calm_world (init ghost_components)).1.
Proof.
  apply (component_without_active_dependency_is_ordered calm_world (init ghost_components) "z").
  - apply (bool_decide_unpack _). vm_compute. exact I.
  - intros d Hd. apply (bool_decide_unpack _).
    assert (d = "ghost") as ->.
    { vm_compute in Hd. by apply list_elem_of_singleton in Hd. }
    vm_compute. exact I.
Defined.

(** ** Starting components *)

(** The two results of [start_component] and the running map. *)
Lemma start_component_outcome (w : World) (name : string) (o : Orchestrator) :
  ((start_component w name o).1 = false →
     processes (start_component w name o).2 = processes o
     ∧ Dict.get name (processes (start_component w name o).2) = None)
  ∧ ((start_component w name o).1 = true →
     is_Some (Dict.get name (processes (start_component w name o).2))
     ∨ (∃ comp, components o !! name = Some comp ∧ optional comp = true
          ∧ path_exists w (script comp) = false
          ∧ processes (start_component w name o).2 = processes o)).
Proof.
  destruct (start_component_spec w name o) as (_ & _ & _ & Hproc & Hfalse).
  split.
  - intros Hr. split; [by apply Hfalse|]. rewrite Hfalse by done.
    revert Hr. unfold start_component.
    destruct (Dict.mem name (processes o)) eqn:Hmem; [done|]. intros _.
    by apply Dict_mem_false.
  - clear Hproc Hfalse. unfold start_component.
    destruct (Dict.mem name (processes o)) eqn:Hmem.
    { intros _. left. by apply Dict_mem_true. }
    destruct (components o !! name) as [comp|]; [|done].
    destruct (path_exists w (script comp)) eqn:Hpath; simpl.
    2:{ destruct (optional comp) eqn:Hopt; [|done]. intros _. right. by exists comp. }
    destruct (check_component_dependencies w name o) as [ok o1].
    destruct ok; simpl; [|done].
    destruct (popen w (clock o1) (script comp)); [|done].
    destruct (poll w _ _); [done|]. simpl.
    intros _. left. rewrite Dict_get_set_eq. by eexists.
Qed.

(** X4. What the result of [start_component] tells: after [False] the running
    map is as it was and the component is not in it; after [True] the
    component is a running instance, unless it is an optional component
    without a script, which is skipped with the running map unchanged. *)
Theorem start_component_result (w : World) (name : string) (o : Orchestrator) :
  ((start_component w name o).1 = false →
     processes (start_component w name o).2 = processes o
     ∧ Dict.get name (processes (start_component w name o).2) = None)
  ∧ ((start_component w name o).1 = true →
     is_Some (Dict.get name (processes (start_component w name o).2))
     ∨ (∃ comp, components o !! name = Some comp ∧ optional comp = true
          ∧ path_exists w (script comp) = false
          ∧ processes (start_component w name o).2 = processes o)).
Proof. apply start_component_outcome. Qed.





Lemma start_component_prefix w name o :
  processes o `prefix_of` processes (start_component w name o).2.
Proof.
  destruct (start_component_spec w name o) as (_ & _ & _ & [->|Happ] & _); [done|].
  destruct Happ as (_ & _ & proc & t & comp & _ & ->). by apply prefix_app_r.
Qed.

Lemma start_loop_prefix w total order : ∀ i failed o,
  processes o `prefix_of` processes (start_loop w total i order failed o).2.
Proof.
  induction order as [|n rest IH]; intros i failed o; simpl; [done|].
  destruct (components o !! n) as [component|]; [|done].
  pose proof (start_component_prefix w n (emit (StartingStep i total n) o)) as Hs.
  destruct (start_component w n (emit (StartingStep i total n) o)) as [ok o1].
  simpl in Hs.
  destruct ok; [by etrans|]. destruct (critical component); [done | by etrans].
Qed.

Lemma start_all_prefix w o : processes o `prefix_of` processes (start_all w o).2.
Proof.
  unfold start_all.
  pose proof (get_startup_order_store w o) as [_ Hp].
  destruct (get_startup_order w o) as [order og]. simpl in Hp.
  pose proof (start_loop_prefix w (length order) order 1 [] (emit (StartupOrder order) og)) as Hl.
  destruct (start_loop w (length order) 1 order [] (emit (StartupOrder order) og)) as [res o3].
  simpl in Hl. rewrite Hp in Hl.
  destruct res as [failed| |]; simpl; try done. by destruct failed.
Qed.

(** X6. Starting never disturbs what runs: the running map before
    [start_component], and before [start_all], is a prefix of the running map
    after it, so no instance is removed, replaced or reordered, also when a
    start fails or the startup aborts. *)
Theorem start_keeps_running_instances (w : World) (name : string) (o : Orchestrator) :
  processes o `prefix_of` processes (start_component w name o).2
  ∧ processes o `prefix_of` processes (start_all w o).2.
Proof. split; [apply start_component_prefix | apply start_all_prefix]. Qed.

Lemma Dict_get_prefix {V} (k : string) (v : V) d d' :
  d `prefix_of` d' → Dict.get k d = Some v → Dict.get k d' = Some v.
Proof.
  intros [d2 ->]. induction d as [|[k' v'] d IH]; simpl; [done|].
  case_decide; [done|]. apply IH.
Qed.

(** The failed list of the startup loop only grows. *)
Lemma start_loop_failed_grows w total order : ∀ i failed o failed' o',
  start_loop w total i order failed o = (LoopDone failed', o') →
  length failed ≤ length failed'.
Proof.
  induction order as [|name rest IH]; intros i failed o failed' o'; simpl.
  { by intros [= <- _]. }
  destruct (components o !! name) as [component|]; [|done].
  destruct (start_component w name (emit (StartingStep i total name) o)) as [ok o1].
  destruct ok; [apply IH|]. destruct (critical component); [done|].
  intros Hrun. apply IH in Hrun. rewrite length_app in Hrun. simpl in Hrun. lia.
Qed.

(** A loop that ran through without a failure left every component of its
    list running, the excluded optional ones apart. *)
Lemma start_loop_all_running w total order : ∀ i failed o o',
  start_loop w total i order failed o = (LoopDone failed, o') →
  ∀ c, c ∈ order → excluded_name w (components o) c = false →
    is_Some (Dict.get c (processes o')).
Proof.
  induction order as [|name rest IH]; intros i failed o o'; simpl.
  { intros _ c Hc. by apply elem_of_nil in Hc. }
  destruct (components o !! name) as [component|] eqn:Hcomp; [|done].
  pose proof (start_component_outcome w name (emit (StartingStep i total name) o)) as [_ Htrue].
  pose proof (start_component_spec w name (emit (StartingStep i total name) o)) as (Hc1 & _).
  destruct (start_component w name (emit (StartingStep i total name) o)) as [ok o1] eqn:Hs.
  simpl in Htrue, Hc1.
  destruct ok; last first.
  { destruct (critical component); [done|]. intros Hrun.
    apply start_loop_failed_grows in Hrun. rewrite length_app in Hrun. simpl in Hrun. lia. }
  intros Hrun c Hc Hexc. apply elem_of_cons in Hc as [->|Hc].
  - destruct (Htrue eq_refl) as [[info Hget]|(comp & Hcomp' & Hopt & Hpath & _)].
    + pose proof (start_loop_prefix w total rest (S i) failed o1) as Hpre.
      rewrite Hrun in Hpre. simpl in Hpre. exists info. by eapply Dict_get_prefix.
    + unfold excluded_name, is_excluded in Hexc. simpl in Hcomp'.
      rewrite Hcomp' in Hexc. by rewrite Hopt, Hpath in Hexc.
  - eapply IH; [exact Hrun|done|]. by rewrite Hc1.
Qed.

(** X7. When [start_all] returns [True], every component of the order that
    [get_startup_order] returned is a running instance afterwards. *)
Theorem start_all_success_means_plan_running (w : World) (o : Orchestrator) :
  (start_all w o).1 = Some true →
  ∀ c, c ∈ (get_startup_order w o).1 → is_Some (Dict.get c (processes (start_all w o).2)).
Proof.
  unfold start_all.
  destruct (resolve_spec w (components o)) as (ordered & res & Hres & Hperm & _).
  pose proof (get_startup_order_fst w o ordered res Hres) as Hfst.
  pose proof (get_startup_order_store w o) as [Hcg _].
  destruct (get_startup_order w o) as [order og]. simpl in Hfst, Hcg. subst order.
  pose proof (start_loop_all_running w (length ordered) ordered 1 []
                (emit (StartupOrder ordered) og)) as Hall.
  destruct (start_loop w (length ordered) 1 ordered [] (emit (StartupOrder ordered) og))
    as [r o3].
  destruct r as [failed| |]; simpl; [|done..].
  destruct failed as [|f fs]; [|done]. intros _ c Hc.
  apply (Hall o3 eq_refl c Hc). simpl. rewrite Hcg.
  assert (c ∈ active_components w (components o)) as Hact.
  { rewrite <- Hperm. apply elem_of_app. by left. }
  unfold active_components in Hact. apply list_elem_of_filter in Hact as [Hexc _].
  by destruct (excluded_name w (components o) c).
Qed.

Lemma start_all_success_means_plan_running_witness :
  is_Some (Dict.get "d" (processes (start_all calm_world (init abcd_components)).2)).
Proof.
  apply (start_all_success_means_plan_running calm_world (init abcd_components)).
  - vm_compute. reflexivity.
  - apply (bool_decide_unpack _). vm_compute. exact I.
Defined.

(** ** Stopping components *)

(** The result of [stop_component] is decided by whether the calls on the
    process handle raise. *)
Lemma stop_component_returns w name o :
  (stop_component w name o).1
  = match Dict.get name (processes o) with
    | None => true
    | Some info => negb (stop_raises w (clock o) (process info))
    end.
Proof.
  unfold stop_component, stop_raises.
  destruct (Dict.get name (processes o)) as [info|]; [|done]. simpl.
  destruct (terminate w (clock o) (process info)); simpl; [|done].
  destruct (wait_timeout w (S (clock o)) (process info)); simpl; [done| |done].
  destruct (kill w (S (S (clock o))) (process info)); simpl; [|done].
  by destruct (wait w (S (S (S (clock o)))) (process info)).
Qed.

Lemma stop_loop_clears w names :
  (∀ t p, stop_raises w t p = false) →
  ∀ o, processes (foldl (λ o' name, (stop_component w name o').2) o names)
       = filter (λ kv, kv.1 ∉ names) (processes o).
Proof.
  intros Hno. induction names as [|name rest IH]; intros o; simpl.
  { induction (processes o) as [|kv d IHd]; [done|].
    rewrite filter_cons_True by apply not_elem_of_nil. by rewrite <- IHd. }
  rewrite IH.
  destruct (stop_component_spec w name o) as (_ & _ & _ & Htrue & _).
  rewrite Htrue.
  - unfold Dict.del. rewrite list_filter_filter. apply list_filter_iff.
    intros [k v]. simpl. rewrite not_elem_of_cons. tauto.
  - rewrite stop_component_returns. destruct (Dict.get name (processes o)); [|done].
    by rewrite Hno.
Qed.

(** X8. In a world in which no [terminate], [wait] or [kill] ever raises,
    [stop_all] leaves the running map empty. *)
Theorem stop_all_empties_running_map (w : World) (o : Orchestrator) :
  (∀ t p, stop_raises w t p = false) →
  processes (stop_all w o) = [].
Proof.
  intros Hno. unfold stop_all. rewrite stop_loop_clears by done.
  assert (∀ (names : list string) (d : list (string * ProcessInfo)),
            (∀ kv, kv ∈ d → kv.1 ∈ names) → filter (λ kv, kv.1 ∉ names) d = []) as Hnil.
  { intros names d. induction d as [|kv d IH]; intros Hin; [done|].
    rewrite filter_cons_False.
    - apply IH. intros kv' Hkv'. apply Hin. by right.
    - intros Hn. apply Hn, Hin. by left. }
  apply Hnil. intros kv Hkv. rewrite elem_of_reverse. unfold Dict.keys.
  by apply list_elem_of_fmap_2.
Qed.

Lemma stop_all_empties_running_map_witness :
  processes (stop_all calm_world (start_all calm_world (init abcd_components)).2) = [].
Proof.
  apply (stop_all_empties_running_map calm_world). intros t p. reflexivity.
Defined.

Lemma stop_component_sublist w name o :
  processes (stop_component w name o).2 `sublist_of` processes o.
Proof.
  destruct (stop_component_processes w name o) as [->| ->]; [done|].
  apply sublist_filter.
Qed.

(** X9. In any world, [stop_all] only removes: the running map it leaves is a
    sublist of the one it found, so whatever instance stays is the same
    instance at the same relative position; the registry and the [running]
    flag are untouched. *)
Theorem stop_all_only_removes (w : World) (o : Orchestrator) :
  processes (stop_all w o) `sublist_of` processes o
  ∧ components (stop_all w o) = components o
  ∧ running (stop_all w o) = running o.
Proof.
  unfold stop_all. generalize (reverse (Dict.keys (processes o))). intros names.
  revert o. induction names as [|name rest IH]; intros o; simpl; [done|].
  destruct (IH (stop_component w name o).2) as (Hs & Hc & Hr).
  destruct (stop_component_spec w name o) as (Hc1 & Hr1 & _).
  split_and!; [|congruence..].
  etrans; [exact Hs | apply stop_component_sublist].
Qed.

(** ** The health probe *)

(** X10. [check_component_health] answers [True] exactly when the component
    is a running instance whose process [poll] finds running, whose port, if
    it declares one, accepts a connection ([connect_ex] returns [0]), and
    whose health endpoint, if it declares a port and an endpoint, answers
    with status [200]; the three checks are made in this order at
    consecutive times, and the probe changes neither the registry, nor the
    running map, nor the flag, nor the log. *)
Theorem health_probe_layers (w : World) (name : string) (o : Orchestrator) :
  ((check_component_health w name o).1 = true ↔
     ∃ info, Dict.get name (processes o) = Some info
       ∧ poll w (clock o) (process info) = None
       ∧ ∀ pt, port (component_info info) = Some pt →
           connect_ex w (S (clock o)) pt = Some 0%Z
           ∧ ∀ path, health_endpoint (component_info info) = Some path →
               http_get w (S (S (clock o))) pt path = Some 200%Z)
  ∧ components (check_component_health w name o).2 = components o
  ∧ processes (check_component_health w name o).2 = processes o
  ∧ running (check_component_health w name o).2 = running o
  ∧ log (check_component_health w name o).2 = log o.
Proof.
  split; [|apply check_component_health_frame].
  unfold check_component_health.
  destruct (Dict.get name (processes o)) as [info|]; simpl.
  2:{ split; [done|]. by intros (? & ? & _). }
  destruct (poll w (clock o) (process info)) eqn:Hpoll; simpl.
  { split; [done|]. intros (? & [= <-] & ? & _). congruence. }
  destruct (port (component_info info)) as [pt|] eqn:Hport; simpl.
  2:{ split; [|done]. intros _. exists info. split_and!; try done. by rewrite Hport. }
  destruct (connect_ex w (S (clock o)) pt) as [[| |]|] eqn:Hconn; simpl;
    try (split; [done|]; intros (? & [= <-] & _ & Hpt);
         destruct (Hpt pt Hport) as [? _]; congruence).
  destruct (health_endpoint (component_info info)) as [path|] eqn:Hpath; simpl.
  2:{ split; [|done]. intros _. exists info. split_and!; try done.
      rewrite Hport. intros ? [= <-]. split; [done|]. by rewrite Hpath. }
  destruct (http_get w (S (S (clock o))) pt path) as [code|] eqn:Hget; simpl.
  2:{ split; [done|]. intros (? & [= <-] & _ & Hpt).
      destruct (Hpt pt Hport) as [_ Hp]. specialize (Hp path Hpath). congruence. }
  destruct (decide (code = 200%Z)) as [->|Hne].
  - split; [|done]. intros _. exists info. split_and!; try done.
    rewrite Hport. intros ? [= <-]. split; [done|]. rewrite Hpath. by intros ? [= <-].
  - assert ((match code with 200%Z => (true, tick (tick (tick o))) | _ => (false, tick (tick (tick o))) end).1 = false) as Hf.
    { destruct code as [|p|p]; try done. do 8 (destruct p as [p|p|]; try done). }
    split.
    + intros Ht. revert Hf. 
      match goal with |- ?x = false → _ => match type of Ht with ?y = true => change y with x in Ht end end.
      congruence.
    + intros (? & [= <-] & _ & Hpt).
      destruct (Hpt pt Hport) as [_ Hp]. specialize (Hp path Hpath). congruence.
Qed.

(** ** The [running] flag and the invariants of a run *)

Lemma restart_component_running w name o :
  running (restart_component w name o) = running o.
Proof.
  unfold restart_component.
  destruct (start_component_spec w name
              (stop_component w name
                 (set_processes (increment_restart_count name (processes (emit (Restarting name) o)))
                    (emit (Restarting name) o))).2) as (_ & -> & _).
  by destruct (stop_component_spec w name
              (set_processes (increment_restart_count name (processes (emit (Restarting name) o)))
                 (emit (Restarting name) o))) as (_ & -> & _).
Qed.

Lemma monitor_components_running w names : ∀ failed o,
  running (monitor_components w names failed o).2 = running o.
Proof.
  induction names as [|name rest IH]; intros failed o; simpl; [done|].
  pose proof (check_component_health_frame w name o) as (_ & _ & Hr & _).
  destruct (check_component_health w name o) as [healthy o1]. simpl in Hr.
  destruct healthy; [by rewrite IH|].
  destruct (Dict.get name (processes o1)) as [info|]; [|done].
  repeat case_decide; rewrite IH, ?restart_component_running; done.
Qed.

Lemma monitor_iteration_running w o : running (monitor_iteration w o).2 = running o.
Proof.
  unfold monitor_iteration.
  pose proof (monitor_components_running w (Dict.keys (processes o)) [] o) as H.
  destruct (monitor_components w (Dict.keys (processes o)) [] o) as [[failed|] o1]; simpl in *;
    repeat case_match; done.
Qed.

Lemma start_loop_running w total order : ∀ i failed o,
  running (start_loop w total i order failed o).2 = running o.
Proof.
  induction order as [|name rest IH]; intros i failed o; simpl; [done|].
  destruct (components o !! name) as [component|]; [|done].
  destruct (start_component_spec w name (emit (StartingStep i total name) o)) as (_ & Hr & _).
  destruct (start_component w name (emit (StartingStep i total name) o)) as [ok o1].
  simpl in Hr.
  destruct ok; [by rewrite IH|]. destruct (critical component); [done | by rewrite IH].
Qed.

Lemma start_all_running w o : running (start_all w o).2 = running o.
Proof.
  unfold start_all.
  assert (running (get_startup_order w o).2 = running o) as Hg.
  { unfold get_startup_order. by destruct (resolve w (components o)) as [[? [?|]]|]. }
  destruct (get_startup_order w o) as [order og]. simpl in Hg.
  pose proof (start_loop_running w (length order) order 1 [] (emit (StartupOrder order) og)) as Hl.
  destruct (start_loop w (length order) 1 order [] (emit (StartupOrder order) og)) as [res o3].
  simpl in Hl. destruct res as [failed| |]; simpl; try congruence.
  destruct failed; simpl; congruence.
Qed.

Lemma stop_loop_running w names : ∀ o,
  running (foldl (λ o' name, (stop_component w name o').2) o names) = running o.
Proof.
  induction names as [|name rest IH]; intros o; simpl; [done|].
  rewrite IH. by destruct (stop_component_spec w name o) as (_ & -> & _).
Qed.

Lemma run_op_running w o op : running (run_op w o op) = running o.
Proof.
  destruct op; simpl.
  - by destruct (start_component_spec w name o) as (_ & -> & _).
  - by destruct (stop_component_spec w name o) as (_ & -> & _).
  - apply restart_component_running.
  - apply start_all_running.
  - apply stop_loop_running.
  - apply monitor_iteration_running.
Qed.

Lemma run_ops_running w ops : ∀ o, running (run_ops w ops o) = running o.
Proof.
  unfold run_ops. induction ops as [|op ops IH]; intros o; simpl; [done|].
  by rewrite IH, run_op_running.
Qed.

(** X11. Throughout a run, whatever the operations and the world: the
    registry is the one the orchestrator was built with, no component has
    two running instances, every running instance carries the registry's
    description of its component, and the [running] flag stays set. *)
Theorem run_invariants (w : World) (comps : gmap string Component) (ops : list Op) :
  let o := run_ops w ops (init comps) in
  components o = comps
  ∧ NoDup (Dict.keys (processes o))
  ∧ (∀ name info, Dict.get name (processes o) = Some info →
       comps !! name = Some (component_info info))
  ∧ running o = true.
Proof.
  intros o.
  destruct (run_ops_evolves w ops (init comps)) as [Hc _].
  destruct (run_consistent w comps ops) as [Hnd Hinfo]. fold o in Hc, Hnd, Hinfo.
  split_and!; [done|done| |].
  - intros name info Hget. rewrite <- (Hinfo name info Hget). by rewrite Hc.
  - unfold o. by rewrite run_ops_running.
Qed.

(** X12. [shutdown] clears the [running] flag, and the monitor loop makes no
    further pass on the state it leaves, however many passes it is given. *)
Theorem shutdown_ends_monitoring (w w' : World) (o : Orchestrator) (n : nat) :
  running (shutdown w o) = false
  ∧ monitor_loop w' n (shutdown w o) = shutdown w o.
Proof.
  assert (running (shutdown w o) = false) as Hr.
  { unfold shutdown, stop_all. by rewrite stop_loop_running. }
  split; [done|]. destruct n; simpl; [done|]. by rewrite Hr.
Qed.

(** ** Passes of the monitor loop *)

Lemma always_healthy_probe w name o info :
  always_healthy w → Dict.get name (processes o) = Some info →
  (check_component_health w name o).1 = true.
Proof.
  intros (Hpoll & Hconn & Hhttp) Hget. unfold check_component_health.
  rewrite Hget, Hpoll. simpl. destruct (port (component_info info)); [|done].
  rewrite Hconn. simpl. destruct (health_endpoint (component_info info)); [|done].
  by rewrite Hhttp.
Qed.

Lemma healthy_components_pass w names : always_healthy w → ∀ failed o,
  (∀ name, name ∈ names → is_Some (Dict.get name (processes o))) →
  (monitor_components w names failed o).1 = Some failed
  ∧ processes (monitor_components w names failed o).2 = processes o
  ∧ log (monitor_components w names failed o).2 = log o.
Proof.
  intros Hw. induction names as [|name rest IH]; intros failed o Hin; simpl; [done|].
  destruct (Hin name) as [info Hget]; [by left|].
  pose proof (always_healthy_probe w name o info Hw Hget) as Hh.
  pose proof (check_component_health_frame w name o) as (_ & Hp & _ & Hl).
  destruct (check_component_health w name o) as [healthy o1]. simpl in Hh, Hp, Hl.
  subst healthy. rewrite <- Hp, <- Hl. apply IH.
  intros name' Hname'. rewrite Hp. apply Hin. by right.
Qed.

(** X13. In a world in which every probe succeeds, a pass of the monitor
    loop restarts nothing and reports nothing: its failed list is empty and
    the running map and the log are as they were. *)
Theorem healthy_pass_changes_nothing (w : World) (o : Orchestrator) :
  always_healthy w →
  (monitor_iteration w o).1 = Some []
  ∧ processes (monitor_iteration w o).2 = processes o
  ∧ log (monitor_iteration w o).2 = log o.
Proof.
  intros Hw. unfold monitor_iteration.
  destruct (healthy_components_pass w (Dict.keys (processes o)) Hw [] o) as (Hf & Hp & Hl).
  { intros name Hname. destruct (Dict.get name (processes o)) eqn:Hget; [by eauto|].
    apply Dict_get_None in Hget. by destruct Hget. }
  destruct (monitor_components w (Dict.keys (processes o)) [] o) as [failed o1].
  simpl in Hf, Hp, Hl. by subst failed.
Qed.

Lemma healthy_pass_changes_nothing_witness :
  let o := (start_all calm_world (init default_components)).2 in
  (monitor_iteration calm_world o).1 = Some []
  ∧ processes (monitor_iteration calm_world o).2 = processes o
  ∧ log (monitor_iteration calm_world o).2 = log o.
Proof.
  apply (healthy_pass_changes_nothing calm_world). by split_and!.
Defined.

Lemma monitor_components_manual w names c info :
  restart_policy (component_info info) ≠ "always" →
  restart_policy (component_info info) ≠ "on_failure" →
  ∀ failed o, Dict.get c (processes o) = Some info →
    Dict.get c (processes (monitor_components w names failed o).2) = Some info.
Proof.
  intros Hna Hnf. induction names as [|name rest IH]; intros failed o Hget; simpl; [done|].
  pose proof (check_component_health_frame w name o) as (_ & Hp & _).
  destruct (check_component_health w name o) as [healthy o1]. simpl in Hp.
  rewrite <- Hp in Hget.
  destruct healthy; [by apply IH|].
  destruct (Dict.get name (processes o1)) as [info'|] eqn:Hget'; [|done].
  destruct (decide (name = c)) as [->|Hne].
  - assert (info' = info) as -> by congruence.
    rewrite !decide_False by done. by apply IH.
  - repeat case_decide; apply IH; rewrite ?restart_component_get_ne by done; done.
Qed.

(** X14. A pass of the monitor loop never touches a running instance whose
    restart policy is neither ['always'] nor ['on_failure'] (['manual'] or
    anything else): healthy or not, it is the same instance afterwards. *)
Theorem manual_policy_instance_left_alone (w : World) (o : Orchestrator) (c : string)
    (info : ProcessInfo) :
  Dict.get c (processes o) = Some info →
  restart_policy (component_info info) ≠ "always" →
  restart_policy (component_info info) ≠ "on_failure" →
  Dict.get c (processes (monitor_iteration w o).2) = Some info.
Proof.
  intros Hget Hna Hnf. unfold monitor_iteration.
  pose proof (monitor_components_manual w (Dict.keys (processes o)) c info Hna Hnf [] o Hget) as H.
  destruct (monitor_components w (Dict.keys (processes o)) [] o) as [[failed|] o1]; simpl in *;
    repeat case_match; done.
Qed.

Lemma manual_policy_instance_left_alone_witness :
  let o := (start_all calm_world (init abcd_components)).2 in
  ∃ info, Dict.get "c" (processes o) = Some info
    ∧ (check_component_health c_dies_world "c" o).1 = false
    ∧ Dict.get "c" (processes (monitor_iteration c_dies_world o).2) = Some info.
Proof.
  eexists. split; [vm_compute; reflexivity|]. split; [vm_compute; reflexivity|].
  apply (manual_policy_instance_left_alone c_dies_world); vm_compute; done.
Defined.

(** ** The restart ceiling *)

(** What [restart_component] leaves under the name it was called for: nothing,
    a new instance with counter [0], or the old instance with its counter
    raised by one (when the stop raised). *)
Lemma restart_component_get_eq w name o info' :
  Dict.get name (processes (restart_component w name o)) = Some info' →
  restart_count info' = 0
  ∨ ∃ info, Dict.get name (processes o) = Some info
      ∧ component_info info' = component_info info
      ∧ restart_count info' = restart_count info + 1.
Proof.
  unfold restart_component. simpl.
  set (o2 := set_processes _ _). intros Hget.
  assert (Dict.get name (processes o2)
          = (λ info, mkProcessInfo (process info) (start_time info) (restart_count info + 1)
                       (component_info info)) <$> Dict.get name (processes o)) as Ho2.
  { unfold o2. simpl. apply increment_restart_count_get. }
  destruct (start_component_spec w name (stop_component w name o2).2)
    as (_ & _ & _ & [Hsame|Happ] & _).
  - rewrite Hsame in Hget.
    destruct (stop_component_processes w name o2) as [Hp|Hp]; rewrite Hp in Hget.
    + rewrite Ho2 in Hget. destruct (Dict.get name (processes o)) as [info|]; [|done].
      simpl in Hget. injection Hget as <-. right. by exists info.
    + by rewrite Dict_get_del_eq in Hget.
  - destruct Happ as (_ & Hnone & proc & t & comp & _ & Hp). rewrite Hp in Hget.
    rewrite Dict_get_app_eq in Hget by done. injection Hget as <-. by left.
Qed.

Lemma within_restart_ceiling_same o o' :
  processes o' = processes o → within_restart_ceiling o → within_restart_ceiling o'.
Proof. unfold within_restart_ceiling. by intros ->. Qed.

Lemma start_component_ceiling w name o :
  within_restart_ceiling o → within_restart_ceiling (start_component w name o).2.
Proof.
  intros Hc. destruct (start_component_spec w name o) as (_ & _ & _ & [Hsame|Happ] & _).
  { by apply (within_restart_ceiling_same o). }
  destruct Happ as (_ & Hnone & proc & t & comp & _ & Hp).
  intros name' info'. rewrite Hp. destruct (decide (name = name')) as [<-|Hne].
  - rewrite Dict_get_app_eq by done. intros [= <-] _. simpl. lia.
  - rewrite Dict_get_app_ne by done. apply Hc.
Qed.

Lemma stop_component_ceiling w name o :
  within_restart_ceiling o → within_restart_ceiling (stop_component w name o).2.
Proof.
  intros Hc. destruct (stop_component_processes w name o) as [Hp|Hp].
  { by apply (within_restart_ceiling_same o). }
  intros name' info'. rewrite Hp. destruct (decide (name = name')) as [<-|Hne].
  - by rewrite Dict_get_del_eq.
  - rewrite Dict_get_del_ne by done. apply Hc.
Qed.

(** A restart decided by the monitor loop keeps the ceiling. *)
Lemma monitor_restart_ceiling w name o info :
  within_restart_ceiling o →
  Dict.get name (processes o) = Some info →
  (restart_policy (component_info info) = "on_failure" → restart_count info < 3) →
  within_restart_ceiling (restart_component w name o).
Proof.
  intros Hc Hget Hbelow name' info' Hget' Hpol.
  destruct (decide (name = name')) as [<-|Hne].
  - destruct (restart_component_get_eq w name o info' Hget')
      as [->|(info0 & Hget0 & Hci & ->)]; [lia|].
    assert (info0 = info) as -> by congruence.
    rewrite Hci in Hpol. specialize (Hbelow Hpol). lia.
  - rewrite restart_component_get_ne in Hget' by done. by eapply Hc.
Qed.

Lemma monitor_components_ceiling w names : ∀ failed o,
  within_restart_ceiling o → within_restart_ceiling (monitor_components w names failed o).2.
Proof.
  induction names as [|name rest IH]; intros failed o Hc; simpl; [done|].
  pose proof (check_component_health_frame w name o) as (_ & Hp & _).
  destruct (check_component_health w name o) as [healthy o1]. simpl in Hp.
  assert (within_restart_ceiling o1) as Hc1 by (by apply (within_restart_ceiling_same o)).
  destruct healthy; [by apply IH|].
  destruct (Dict.get name (processes o1)) as [info|] eqn:Hget; [|done].
  case_decide as Halways.
  { apply IH. apply (monitor_restart_ceiling w name _ info); [done..|].
    intros Hof. congruence. }
  case_decide as Honfail; [|by apply IH].
  simpl. case_decide as Hcount; [|by apply IH].
  apply IH. by apply (monitor_restart_ceiling w name _ info).
Qed.

Lemma monitor_iteration_ceiling w o :
  within_restart_ceiling o → within_restart_ceiling (monitor_iteration w o).2.
Proof.
  intros Hc. unfold monitor_iteration.
  pose proof (monitor_components_ceiling w (Dict.keys (processes o)) [] o Hc) as H.
  destruct (monitor_components w (Dict.keys (processes o)) [] o) as [[failed|] o1]; simpl in *;
    repeat case_match; done.
Qed.

Lemma start_loop_ceiling w total order : ∀ i failed o,
  within_restart_ceiling o → within_restart_ceiling (start_loop w total i order failed o).2.
Proof.
  induction order as [|name rest IH]; intros i failed o Hc; simpl; [done|].
  destruct (components o !! name) as [component|]; [|done].
  pose proof (start_component_ceiling w name (emit (StartingStep i total name) o) Hc) as Hs.
  destruct (start_component w name (emit (StartingStep i total name) o)) as [ok o1].
  simpl in Hs.
  destruct ok; [by apply IH|]. destruct (critical component); [done | by apply IH].
Qed.

Lemma start_all_ceiling w o :
  within_restart_ceiling o → within_restart_ceiling (start_all w o).2.
Proof.
  intros Hc. unfold start_all.
  pose proof (get_startup_order_store w o) as [_ Hp].
  destruct (get_startup_order w o) as [order og]. simpl in Hp.
  assert (within_restart_ceiling (emit (StartupOrder order) og)) as Hc1
    by (by apply (within_restart_ceiling_same o)).
  pose proof (start_loop_ceiling w (length order) order 1 [] _ Hc1) as Hl.
  destruct (start_loop w (length order) 1 order [] (emit (StartupOrder order) og)) as [res o3].
  simpl in Hl. destruct res as [failed| |]; simpl; try done. by destruct failed.
Qed.

Lemma stop_loop_ceiling w names : ∀ o,
  within_restart_ceiling o →
  within_restart_ceiling (foldl (λ o' name, (stop_component w name o').2) o names).
Proof.
  induction names as [|name rest IH]; intros o Hc; simpl; [done|].
  by apply IH, stop_component_ceiling.
Qed.

(** X15. In a run that has no restart asked for by name (starts, stops,
    [start_all], [stop_all] and monitor passes only), in any world, the
    restart counter of an instance with the policy ['on_failure'] never
    exceeds 3. *)
Theorem on_failure_counter_stays_within_ceiling (w : World) (comps : gmap string Component)
    (ops : list Op) :
  forallb not_manual_restart ops = true →
  within_restart_ceiling (run_ops w ops (init comps)).
Proof.
  intros Hops. apply Is_true_true in Hops. rewrite forallb_True in Hops.
  assert (within_restart_ceiling (init comps)) as Hinit by (by intros ? ? ?).
  revert Hinit. generalize (init comps). unfold run_ops.
  induction Hops as [|op ops Hop _ IH]; intros o Hc; simpl; [done|].
  apply IH. destruct op; simpl; try done;
    auto using start_component_ceiling, stop_component_ceiling, start_all_ceiling,
      monitor_iteration_ceiling.
  apply stop_loop_ceiling, Hc.
Qed.

Lemma on_failure_counter_stays_within_ceiling_witness :
  let o := run_ops deaf_stubborn_world
             [OpStartAll; OpMonitor; OpMonitor; OpMonitor; OpMonitor; OpMonitor]
             (init svc_components) in
  restarted (log o) = ["svc"; "svc"; "svc"]
  ∧ restart_count <$> Dict.get "svc" (processes o) = Some 3
  ∧ filter (λ e, e = ExceededRestartLimit "svc") (log o)
    = [ExceededRestartLimit "svc"; ExceededRestartLimit "svc"]
  ∧ within_restart_ceiling o.
Proof.
  split; [vm_compute; reflexivity|]. split; [vm_compute; reflexivity|].
  split; [vm_compute; reflexivity|].
  apply (on_failure_counter_stays_within_ceiling deaf_stubborn_world). reflexivity.
Defined.

(** ** Restarts within one pass *)

Lemma restarted_app l1 l2 : restarted (l1 ++ l2) = restarted l1 ++ restarted l2.
Proof. apply omap_app. Qed.

Lemma check_dependencies_restarted w name deps : ∀ o,
  restarted (log (check_dependencies w name deps o).2) = restarted (log o).
Proof.
  induction deps as [|dep deps IH]; intros o; simpl; [done|].
  destruct (Dict.get dep (processes o)) as [info|]; simpl.
  - destruct (poll w (clock o) (process info)); simpl.
    + rewrite restarted_app. simpl. by rewrite app_nil_r.
    + by rewrite IH.
  - rewrite restarted_app. simpl. by rewrite app_nil_r.
Qed.

Lemma start_component_restarted w name o :
  restarted (log (start_component w name o).2) = restarted (log o).
Proof.
  unfold start_component, check_component_dependencies.
  pose proof (check_dependencies_restarted w name (deps_of (components o) name) o) as Hl.
  destruct (check_dependencies w name (deps_of (components o) name) o) as [ok o1].
  simpl in Hl.
  repeat (case_match; simpl; try done);
    rewrite ?restarted_app, ?Hl; simpl; by rewrite ?app_nil_r.
Qed.

Lemma stop_component_restarted w name o :
  restarted (log (stop_component w name o).2) = restarted (log o).
Proof.
  unfold stop_component.
  repeat (case_match; simpl; try done); rewrite ?restarted_app; simpl; by rewrite ?app_nil_r.
Qed.

Lemma restart_component_restarted w name o :
  restarted (log (restart_component w name o)) = restarted (log o) ++ [name].
Proof.
  unfold restart_component. rewrite start_component_restarted, stop_component_restarted.
  simpl. by rewrite restarted_app.
Qed.

(** The names restarted and the names put on the failed list while the loop
    goes over [names] are, taken together, a selection from [names]. *)
Lemma monitor_components_restarts w names : ∀ failed o failed' o',
  monitor_components w names failed o = (Some failed', o') →
  ∃ rs fs, restarted (log o') = restarted (log o) ++ rs
    ∧ failed' = failed ++ fs
    ∧ rs ++ fs ⊆+ names.
Proof.
  induction names as [|name rest IH]; intros failed o failed' o'; simpl.
  { intros [= <- <-]. exists [], []. by rewrite !app_nil_r. }
  pose proof (check_component_health_frame w name o) as (_ & _ & _ & Hl).
  destruct (check_component_health w name o) as [healthy o1]. simpl in Hl.
  destruct healthy.
  { intros Hrun. destruct (IH _ _ _ _ Hrun) as (rs & fs & Hr & Hf & Hsub).
    exists rs, fs. rewrite Hr, Hl. split_and!; [done..|]. by apply submseteq_cons. }
  destruct (Dict.get name (processes o1)) as [info|]; [|done].
  assert (∀ o2, restarted (log o2) = restarted (log o) ++ [name] →
            monitor_components w rest failed o2 = (Some failed', o') →
            ∃ rs fs, restarted (log o') = restarted (log o) ++ rs
              ∧ failed' = failed ++ fs ∧ rs ++ fs ⊆+ name :: rest) as Hres.
  { intros o2 Ho2 Hrun. destruct (IH _ _ _ _ Hrun) as (rs & fs & Hr & Hf & Hsub).
    exists (name :: rs), fs. rewrite Hr, Ho2, <- (assoc_L (++)).
    split_and!; [done..|]. simpl. by apply submseteq_skip. }
  assert (∀ o2, restarted (log o2) = restarted (log o) →
            monitor_components w rest (failed ++ [name]) o2 = (Some failed', o') →
            ∃ rs fs, restarted (log o') = restarted (log o) ++ rs
              ∧ failed' = failed ++ fs ∧ rs ++ fs ⊆+ name :: rest) as Hfail.
  { intros o2 Ho2 Hrun. destruct (IH _ _ _ _ Hrun) as (rs & fs & Hr & Hf & Hsub).
    exists rs, (name :: fs). rewrite Hr, Ho2, Hf, <- (assoc_L (++)).
    split_and!; [done..|].
    rewrite <- Permutation_middle. by apply submseteq_skip. }
  repeat case_decide; (apply Hres || apply Hfail);
    rewrite ?restart_component_restarted; simpl;
    rewrite !restarted_app, Hl; simpl; by rewrite ?app_nil_r.
Qed.

(** X16. In a pass of the monitor loop over any state a run reaches, no
    component is restarted twice, no component is both restarted and put on
    the failed list, and nothing is restarted or reported that was not a
    running instance when the pass began. *)
Theorem pass_restarts_each_component_at_most_once (w : World)
    (comps : gmap string Component) (ops : list Op) :
  let o := run_ops w ops (init comps) in
  ∀ failed, (monitor_iteration w o).1 = Some failed →
    ∃ rs, restarted (log (monitor_iteration w o).2) = restarted (log o) ++ rs
      ∧ NoDup (rs ++ failed)
      ∧ ∀ c, c ∈ rs ++ failed → is_Some (Dict.get c (processes o)).
Proof.
  intros o failed. pose proof (run_consistent w comps ops) as [Hnd _]. fold o in Hnd.
  unfold monitor_iteration.
  pose proof (monitor_components_restarts w (Dict.keys (processes o)) [] o) as Hrs.
  destruct (monitor_components w (Dict.keys (processes o)) [] o) as [[failed'|] o1];
    [|done].
  destruct (Hrs failed' o1 eq_refl) as (rs & fs & Hr & Hf & Hsub). simpl in Hf. subst fs.
  assert (∀ o2, restarted (log o2) = restarted (log o1) → failed' = failed →
     ∃ rs0, restarted (log o2) = restarted (log o) ++ rs0
       ∧ NoDup (rs0 ++ failed)
       ∧ ∀ c, c ∈ rs0 ++ failed → is_Some (Dict.get c (processes o))) as Hfin.
  { intros o2 Ho2 <-. exists rs. rewrite Ho2. split_and!; [done| |].
    - apply submseteq_Permutation in Hsub as [k Hk]. rewrite Hk in Hnd.
      by apply NoDup_app in Hnd as (? & _ & _).
    - intros c Hc. eapply elem_of_submseteq in Hc; [|exact Hsub].
      destruct (Dict.get c (processes o)) eqn:Hget; [by eauto|].
      apply Dict_get_None in Hget. by destruct Hget. }
  destruct (forallb _ failed'); simpl; [|done].
  destruct (filter _ failed') as [|c0 cs0]; simpl; intros [= <-].
  - by apply (Hfin o1).
  - apply (Hfin (emit (CriticalAlert (c0 :: cs0)) o1)); [|done].
    simpl. rewrite restarted_app. simpl. by rewrite app_nil_r.
Qed.

Lemma pass_restarts_each_component_at_most_once_witness :
  let o := run_ops deaf_world [OpStartAll] (init svc_components) in
  ∃ rs, restarted (log (monitor_iteration deaf_world o).2) = restarted (log o) ++ rs
    ∧ NoDup (rs ++ [])
    ∧ ∀ c, c ∈ rs ++ [] → is_Some (Dict.get c (processes o)).
Proof.
  apply (pass_restarts_each_component_at_most_once deaf_world svc_components [OpStartAll] []).
  vm_compute. reflexivity.
Defined.

(** ** The status report *)

Local Ltac count_bounds Hle Hlisted :=
  first [ lia
        | etrans; [eassumption | exact Hle]
        | rewrite Hlisted; first [ by apply le_n_S | etrans; [eassumption | by apply Nat.le_succ_diag_r] ] ].

(** What the loop of [get_system_status] adds to the summary and what it
    leaves alone. *)
Lemma status_loop_spec w items : ∀ report s o,
  let r := status_loop w items report s o in
  components r.2 = components o ∧ processes r.2 = processes o
  ∧ running r.2 = running o ∧ log r.2 = log o
  ∧ total_components r.1.2 = total_components s
  ∧ ∃ dr dh dc dt,
      running_components r.1.2 = running_components s + dr
      ∧ healthy_components r.1.2 = healthy_components s + dh
      ∧ critical_components_running r.1.2 = critical_components_running s + dc
      ∧ total_critical_components r.1.2 = total_critical_components s + dt
      ∧ dh ≤ dr ∧ dc ≤ dr ∧ dc ≤ dt
      ∧ dr ≤ length (filter (λ n, listed w (components o) n) items)
      ∧ dt ≤ length (filter (λ n, listed w (components o) n) items).
Proof.
  induction items as [|name rest IH]; intros report s o; simpl.
  { split_and!; try done. exists 0, 0, 0, 0. simpl. lia. }
  assert (length (filter (λ n, listed w (components o) n) rest)
          ≤ length (filter (λ n, listed w (components o) n) (name :: rest))) as Hle.
  { rewrite filter_cons. case_decide; simpl; lia. }
  assert (match components o !! name with
          | Some config => negb (is_excluded w config)
          | None => false
          end = true →
          length (filter (λ n, listed w (components o) n) (name :: rest))
          = S (length (filter (λ n, listed w (components o) n) rest))) as Hlisted.
  { intros H. rewrite filter_cons_True; [done | unfold listed; by rewrite H]. }
  assert (∀ rp s1 o1, components o1 = components o →
            let r := status_loop w rest rp s1 o1 in
            components r.2 = components o1 ∧ processes r.2 = processes o1
            ∧ running r.2 = running o1 ∧ log r.2 = log o1
            ∧ total_components r.1.2 = total_components s1
            ∧ ∃ dr dh dc dt,
                running_components r.1.2 = running_components s1 + dr
                ∧ healthy_components r.1.2 = healthy_components s1 + dh
                ∧ critical_components_running r.1.2 = critical_components_running s1 + dc
                ∧ total_critical_components r.1.2 = total_critical_components s1 + dt
                ∧ dh ≤ dr ∧ dc ≤ dr ∧ dc ≤ dt
                ∧ dr ≤ length (filter (λ n, listed w (components o) n) rest)
                ∧ dt ≤ length (filter (λ n, listed w (components o) n) rest)) as IH'.
  { intros rp s1 o1 Ho1. rewrite <- Ho1. apply IH. }
  clear IH. revert Hle Hlisted.
  generalize (length (filter (λ n, listed w (components o) n) (name :: rest))).
  intros len.
  destruct (components o !! name) as [config|]; simpl.
  2:{ intros Hle Hlisted. destruct (IH' report s o eq_refl)
        as (Hc & Hp & Hr & Hl & Ht & dr & dh & dc & dt & H1 & H2 & H3 & H4 & H5 & H6 & H7 & H8 & H9).
      split_and!; try done. exists dr, dh, dc, dt. split_and!; try done; count_bounds Hle Hlisted. }
  destruct (is_excluded w config); simpl.
  { intros Hle Hlisted. destruct (IH' report s o eq_refl)
        as (Hc & Hp & Hr & Hl & Ht & dr & dh & dc & dt & H1 & H2 & H3 & H4 & H5 & H6 & H7 & H8 & H9).
    split_and!; try done. exists dr, dh, dc, dt. split_and!; try done; count_bounds Hle Hlisted. }
  intros Hle Hlisted. specialize (Hlisted eq_refl).
  destruct (Dict.get name (processes o)) as [info|]; simpl.
  2:{ match goal with |- context [status_loop w rest ?rp ?s1 o] =>
        destruct (IH' rp s1 o eq_refl)
          as (Hc & Hp & Hr & Hl & Ht & dr & dh & dc & dt & H1 & H2 & H3 & H4 & H5 & H6 & H7 & H8 & H9)
      end.
      split_and!; try done.
      exists dr, dh, dc, (dt + (if critical config then 1 else 0)).
      simpl in *. unfold count_if in *. destruct (critical config); split_and!; count_bounds Hle Hlisted. }
  destruct (poll w (clock o) (process info)) as [rc|]; simpl.
  { match goal with |- context [status_loop w rest ?rp ?s1 ?o1] =>
      destruct (IH' rp s1 o1 eq_refl)
        as (Hc & Hp & Hr & Hl & Ht & dr & dh & dc & dt & H1 & H2 & H3 & H4 & H5 & H6 & H7 & H8 & H9)
    end.
    split_and!; try done.
    exists dr, dh, dc, (dt + (if critical config then 1 else 0)).
    simpl in *. unfold count_if in *. destruct (critical config); split_and!; count_bounds Hle Hlisted. }
  pose proof (check_component_health_frame w name (tick o)) as (Hc0 & Hp0 & Hr0 & Hl0).
  destruct (check_component_health w name (tick o)) as [health o1]. simpl in Hc0, Hp0, Hr0, Hl0.
  match goal with |- context [status_loop w rest ?rp ?s1 o1] =>
    destruct (IH' rp s1 o1 Hc0)
      as (Hc & Hp & Hr & Hl & Ht & dr & dh & dc & dt & H1 & H2 & H3 & H4 & H5 & H6 & H7 & H8 & H9)
  end.
  simpl in Ht. split_and!; try congruence.
  exists (S dr), (dh + (if health then 1 else 0)), (dc + (if critical config then 1 else 0)),
    (dt + (if critical config then 1 else 0)).
  simpl in *. unfold count_if in *. destruct (critical config), health; split_and!; count_bounds Hle Hlisted.
Qed.

(** X17. Whatever the order in which the registry is gone through, the state
    and the world: [get_system_status] only reads (registry, running map,
    flag and log are as before), and in its summary the healthy components
    are at most the running ones, the critical running ones are at most the
    running ones and at most the critical ones counted. *)
Theorem status_summary_is_coherent (w : World) (items : list string) (o : Orchestrator) :
  let r := get_system_status w items o in
  components r.2 = components o ∧ processes r.2 = processes o
  ∧ running r.2 = running o ∧ log r.2 = log o
  ∧ healthy_components r.1.2 ≤ running_components r.1.2
  ∧ critical_components_running r.1.2 ≤ running_components r.1.2
  ∧ critical_components_running r.1.2 ≤ total_critical_components r.1.2
  ∧ total_components r.1.2 = size (components o).
Proof.
  unfold get_system_status.
  destruct (status_loop_spec w items [] (mkSummary (size (components o)) 0 0 0 0) o)
    as (Hc & Hp & Hr & Hl & Ht & dr & dh & dc & dt & H1 & H2 & H3 & H4 & H5 & H6 & H7 & H8 & H9).
  simpl in *. split_and!; try done; lia.
Qed.

(** X18. When the registry is gone through key by key, the running and the
    critical components that the summary counts are at most the components
    the registry has ([total_components]). *)
Theorem status_counts_within_total (w : World) (items : list string) (o : Orchestrator) :
  items ≡ₚ elements (dom (components o)) →
  let r := get_system_status w items o in
  running_components r.1.2 ≤ total_components r.1.2
  ∧ total_critical_components r.1.2 ≤ total_components r.1.2.
Proof.
  intros Hitems. unfold get_system_status.
  destruct (status_loop_spec w items [] (mkSummary (size (components o)) 0 0 0 0) o)
    as (Hc & Hp & Hr & Hl & Ht & dr & dh & dc & dt & H1 & H2 & H3 & H4 & H5 & H6 & H7 & H8 & H9).
  simpl in *.
  pose proof (length_filter (λ n, listed w (components o) n) items) as Hlen.
  assert (length items = size (components o)) as Hsize.
  { rewrite Hitems, <- size_dom. done. }
  lia.
Qed.

Lemma status_counts_within_total_witness :
  let r := get_system_status calm_world (elements (dom default_components))
             (start_all calm_world (init default_components)).2 in
  running_components r.1.2 ≤ total_components r.1.2
  ∧ total_critical_components r.1.2 ≤ total_components r.1.2.
Proof.
  apply (status_counts_within_total calm_world). reflexivity.
Defined.

(** ** What [start_all] adds to the running map *)

Lemma start_loop_added w total order : ∀ i failed o,
  ∃ added,
    processes (start_loop w total i order failed o).2 = processes o ++ added
    ∧ Dict.keys added `sublist_of` order
    ∧ Forall (λ kv, restart_count kv.2 = 0) added.
Proof.
  induction order as [|name rest IH]; intros i failed o; simpl.
  { exists []. by rewrite app_nil_r. }
  destruct (components o !! name) as [component|].
  2:{ exists []. rewrite app_nil_r. split_and!; [done| |done]. apply sublist_nil_l. }
  destruct (start_component_spec w name (emit (StartingStep i total name) o))
    as (_ & _ & _ & Hproc & _).
  destruct (start_component w name (emit (StartingStep i total name) o)) as [ok o1].
  simpl in Hproc.
  assert (∃ first, processes o1 = processes o ++ first
            ∧ Dict.keys first `sublist_of` [name]
            ∧ Forall (λ kv, restart_count kv.2 = 0) first) as (first & Hp1 & Hs1 & Hz1).
  { destruct Hproc as [Hsame|(_ & _ & proc & t & comp & _ & Happ)].
    - exists []. rewrite app_nil_r. split_and!; [done| |done]. apply sublist_nil_l.
    - exists [(name, mkProcessInfo proc t 0 comp)]. split_and!; [done|done|].
      by repeat constructor. }
  assert (∀ f, ∃ added,
            processes (start_loop w total (S i) rest f o1).2 = processes o ++ added
            ∧ Dict.keys added `sublist_of` name :: rest
            ∧ Forall (λ kv, restart_count kv.2 = 0) added) as Hrest.
  { intros f. destruct (IH (S i) f o1) as (added & Hp & Hs & Hz).
    exists (first ++ added). rewrite Hp, Hp1, (assoc_L (++)). split_and!; [done| |].
    - unfold Dict.keys. rewrite fmap_app. by apply (sublist_app _ [name]).
    - by apply Forall_app. }
  destruct ok; [apply Hrest|]. destruct (critical component); [|apply Hrest].
  exists first. simpl. split_and!; [done| |done].
  etrans; [exact Hs1|]. apply sublist_skip, sublist_nil_l.
Qed.

(** X19. [start_all] adds to the running map, in the order of the plan: the
    running map afterwards is the one before followed by new instances whose
    names, in this order, are a selection from the order that
    [get_startup_order] returned, and each new instance has the restart
    counter [0]. *)
Theorem start_all_adds_instances_in_plan_order (w : World) (o : Orchestrator) :
  ∃ added,
    processes (start_all w o).2 = processes o ++ added
    ∧ Dict.keys added `sublist_of` (get_startup_order w o).1
    ∧ Forall (λ kv, restart_count kv.2 = 0) added.
Proof.
  unfold start_all.
  pose proof (get_startup_order_store w o) as [_ Hp].
  destruct (get_startup_order w o) as [order og]. simpl in Hp.
  destruct (start_loop_added w (length order) order 1 [] (emit (StartupOrder order) og))
    as (added & Ha & Hs & Hz).
  destruct (start_loop w (length order) 1 order [] (emit (StartupOrder order) og)) as [res o3].
  simpl in Ha. rewrite Hp in Ha.
  exists added. split_and!; [|done..].
  destruct res as [failed| |]; simpl; try done. by destruct failed.
Qed.

Lemma stop_all_clears w o :
  (∀ t p, stop_raises w t p = false) → processes (stop_all w o) = [].
Proof.
  intros Hno. unfold stop_all. rewrite stop_loop_clears by done.
  generalize (reverse_Permutation (Dict.keys (processes o))).
  generalize (reverse (Dict.keys (processes o))). intros names Hnames.
  assert (∀ kv, kv ∈ processes o → kv.1 ∈ names) as Hin.
  { intros kv Hkv. rewrite Hnames. unfold Dict.keys. by apply list_elem_of_fmap_2. }
  clear Hnames. induction (processes o) as [|kv d IH]; [done|].
  rewrite filter_cons_False.
  - apply IH. intros kv' Hkv'. apply Hin. by right.
  - intros Hn. apply Hn, Hin. by left.
Qed.

(** X20. In a world in which no stop raises, [restart_all] leaves a running
    map made of new instances only: their names follow the order of the plan
    and every restart counter is [0], whatever the counters were before. *)
Theorem restart_all_starts_afresh (w : World) (o : Orchestrator) :
  (∀ t p, stop_raises w t p = false) →
  Dict.keys (processes (restart_all w o).2) `sublist_of` (get_startup_order w (stop_all w o)).1
  ∧ Forall (λ kv, restart_count kv.2 = 0) (processes (restart_all w o).2).
Proof.
  intros Hno. unfold restart_all.
  pose proof (stop_all_clears w o Hno) as Hempty.
  pose proof (get_startup_order_store w (stop_all w o)) as [_ Hp].
  unfold start_all.
  destruct (get_startup_order w (stop_all w o)) as [order og]. simpl in Hp.
  destruct (start_loop_added w (length order) order 1 [] (emit (StartupOrder order) og))
    as (added & Ha & Hs & Hz).
  destruct (start_loop w (length order) 1 order [] (emit (StartupOrder order) og)) as [res o3].
  simpl in Ha. rewrite Hp, Hempty in Ha. simpl in Ha.
  assert (processes o3 = added) as Ho3 by done.
  destruct res as [failed| |]; simpl; [destruct failed; simpl|..]; by rewrite Ho3.
Qed.

Lemma restart_all_starts_afresh_witness :
  let o := restart_component stubborn_world "a"
             (start_all calm_world (init abcd_components)).2 in
  restart_count <$> Dict.get "a" (processes o) = Some 1
  ∧ Dict.keys (processes (restart_all calm_world o).2)
      `sublist_of` (get_startup_order calm_world (stop_all calm_world o)).1
  ∧ Forall (λ kv, restart_count kv.2 = 0) (processes (restart_all calm_world o).2).
Proof.
  split; [vm_compute; reflexivity|].
  apply (restart_all_starts_afresh calm_world). intros t p. reflexivity.
Defined.

(** * Shutdown, stop by stop *)

Lemma stopped_ok_app l1 l2 : stopped_ok (l1 ++ l2) = stopped_ok l1 ++ stopped_ok l2.
Proof. apply omap_app. Qed.

Lemma stop_errors_app l1 l2 : stop_errors (l1 ++ l2) = stop_errors l1 ++ stop_errors l2.
Proof. apply omap_app. Qed.

(** One stop of a running instance, in full: its result, the time it takes,
    the running map it leaves and what it logs are fixed by whether one of
    its calls raises. *)
Lemma stop_component_exact w name o info :
  Dict.get name (processes o) = Some info →
  let raised := stop_raises w (clock o) (process info) in
  (stop_component w name o).1 = negb raised
  ∧ clock (stop_component w name o).2 = clock o + stop_duration w (clock o) (process info)
  ∧ processes (stop_component w name o).2
    = (if raised then processes o else Dict.del name (processes o))
  ∧ ∃ es, log (stop_component w name o).2 = log o ++ es
      ∧ stop_attempts es = [name]
      ∧ stopped_ok es = (if raised then [] else [name])
      ∧ stop_errors es = (if raised then [name] else []).
Proof.
  intros Hget. unfold stop_component, stop_raises, stop_duration. rewrite Hget. simpl.
  destruct (terminate w (clock o) (process info)); simpl.
  2:{ split_and!; [done|lia|done|].
      exists [StoppingComponent name; ErrorStopping name].
      split_and!; try done. by rewrite <- (assoc_L (++)). }
  destruct (wait_timeout w (S (clock o)) (process info)); simpl.
  - split_and!; [done|lia|done|].
    exists [StoppingComponent name; Stopped name].
    split_and!; try done. by rewrite <- (assoc_L (++)).
  - destruct (kill w (S (S (clock o))) (process info)); simpl.
    2:{ split_and!; [done|lia|done|].
        exists [StoppingComponent name; ForceKilling name; ErrorStopping name].
        split_and!; try done. by rewrite <- !(assoc_L (++)). }
    destruct (wait w (S (S (S (clock o)))) (process info)); simpl.
    + split_and!; [done|lia|done|].
      exists [StoppingComponent name; ForceKilling name; Stopped name].
      split_and!; try done. by rewrite <- !(assoc_L (++)).
    + split_and!; [done|lia|done|].
      exists [StoppingComponent name; ForceKilling name; ErrorStopping name].
      split_and!; try done. by rewrite <- !(assoc_L (++)).
  - split_and!; [done|lia|done|].
    exists [StoppingComponent name; ErrorStopping name].
    split_and!; try done. by rewrite <- (assoc_L (++)).
Qed.

Lemma scheduled_cons raised name t b plan :
  scheduled raised ((name, t, b) :: plan)
  = (if decide (b = raised) then [name] else []) ++ scheduled raised plan.
Proof. unfold scheduled. rewrite filter_cons. simpl. by case_decide. Qed.

(** The loop of [stop_all] over instances of the running map follows their
    schedule. *)
Lemma stop_loop_exact w todo : ∀ o,
  NoDup (Dict.keys todo) →
  (∀ name info, (name, info) ∈ todo → Dict.get name (processes o) = Some info) →
  let plan := shutdown_schedule w (clock o) todo in
  let o' := foldl (λ o' name, (stop_component w name o').2) o (Dict.keys todo) in
  processes o' = filter (λ kv, kv.1 ∉ scheduled false plan) (processes o)
  ∧ clock o' = schedule_end w (clock o) todo
  ∧ ∃ es, log o' = log o ++ es
      ∧ stop_attempts es = Dict.keys todo
      ∧ stopped_ok es = scheduled false plan
      ∧ stop_errors es = scheduled true plan.
Proof.
  induction todo as [|[name info] rest IH]; intros o Hnd Hin; simpl.
  { split_and!; [|done|].
    - unfold scheduled. simpl. clear Hin. induction (processes o) as [|kv d IHd]; [done|].
      rewrite filter_cons_True by apply not_elem_of_nil. by f_equal.
    - exists []. by rewrite app_nil_r. }
  unfold Dict.keys in Hnd. simpl in Hnd. apply NoDup_cons in Hnd as [Hnotin Hnd].
  assert (Dict.get name (processes o) = Some info) as Hget by (apply Hin; left).
  destruct (stop_component_exact w name o info Hget) as (_ & Hclk & Hproc & es1 & Hl1 & Ha1 & Hs1 & He1).
  set (o1 := (stop_component w name o).2) in *.
  destruct (IH o1 Hnd) as (Hp & Hc & es2 & Hl2 & Ha2 & Hs2 & He2).
  { intros name' info' Hin'. unfold o1. rewrite stop_component_get_ne.
    - apply Hin. by right.
    - intros ->. apply Hnotin. by apply (list_elem_of_fmap_2 fst _ (name', info')). }
  rewrite Hclk in Hp, Hc, Hs2, He2. rewrite !scheduled_cons.
  split_and!.
  - rewrite Hp, Hproc. destruct (stop_raises w (clock o) (process info)); simpl.
    + done.
    + unfold Dict.del. rewrite list_filter_filter. apply list_filter_iff.
      intros [k v]. simpl. rewrite not_elem_of_cons. tauto.
  - done.
  - exists (es1 ++ es2). rewrite Hl2, Hl1, (assoc_L (++)).
    rewrite stop_attempts_app, stopped_ok_app, stop_errors_app, Ha1, Ha2, Hs1, Hs2, He1, He2.
    split_and!; try done; by destruct (stop_raises w (clock o) (process info)).
Qed.

Lemma Dict_get_elem_of {V} (k : string) (v : V) d :
  NoDup (Dict.keys d) → (k, v) ∈ d → Dict.get k d = Some v.
Proof.
  unfold Dict.keys. induction d as [|[k' v'] d IH]; simpl; intros Hnd Hin.
  { by apply elem_of_nil in Hin. }
  apply NoDup_cons in Hnd as [Hnotin Hnd].
  apply elem_of_cons in Hin as [[= -> ->]|Hin]; [by rewrite decide_True|].
  rewrite decide_False; [by apply IH|].
  intros ->. apply Hnotin. by apply (list_elem_of_fmap_2 fst _ (k', v)).
Qed.

Lemma shutdown_schedule_names w todo : ∀ t,
  (λ x, x.1.1) <$> shutdown_schedule w t todo = Dict.keys todo.
Proof.
  induction todo as [|[name info] rest IH]; intros t; simpl; [done|].
  unfold Dict.keys. simpl. f_equal. apply IH.
Qed.

(** C8. In every state [o] that a run reaches from the initial orchestrator
    through any sequence of start, stop, restart, start-all, stop-all and
    monitor operations, in any world (so also when stops fail), [shutdown]
    stops the running instances one after the other in the reverse of the
    sequence in which they were actually started.  The stops it sets out on
    are, in order, the reversed sequence of actual starts read off the log,
    which is the reversed key sequence of the running-instance dictionary;
    every component among them was logged as started, and none is left out
    whatever became of the stops before it.  Each stop is the scheduled one:
    [terminate] is called on the instance's process at its time in the
    schedule, followed by [wait] and, after a timeout, [kill] and [wait]; the
    instances whose calls all return are logged as stopped and are gone from
    the running map, those with a call that raises are logged as errors and
    stay; the clock ends where the schedule ends and the [running] flag is
    cleared. *)
Theorem shutdown_reverses_actual_start_order (w : World) (comps : gmap string Component)
    (ops : list Op) :
  let o := run_ops w ops (init comps) in
  let plan := shutdown_schedule w (clock o) (reverse (processes o)) in
  ∃ es, log (shutdown w o) = log o ++ es
    ∧ stop_attempts es = reverse (actual_start_order (log o))
    ∧ stop_attempts es = reverse (Dict.keys (processes o))
    ∧ (∀ c, c ∈ stop_attempts es → ∃ pid, StartedSuccessfully c pid ∈ log o)
    ∧ stop_attempts es = (λ x, x.1.1) <$> plan
    ∧ stopped_ok es = scheduled false plan
    ∧ stop_errors es = scheduled true plan
    ∧ processes (shutdown w o)
      = filter (λ kv, kv.1 ∉ scheduled false plan) (processes o)
    ∧ clock (shutdown w o) = schedule_end w (clock o) (reverse (processes o))
    ∧ running (shutdown w o) = false.
Proof.
  intros o plan.
  pose proof (run_consistent w comps ops) as [Hnd _].
  pose proof (run_tracked w comps ops) as Htr. fold o in Hnd, Htr.
  assert (Dict.keys (reverse (processes o)) = reverse (Dict.keys (processes o))) as Hkeys.
  { unfold Dict.keys. by rewrite fmap_reverse. }
  destruct (stop_loop_exact w (reverse (processes o)) (set_running false o))
    as (Hp & Hc & es & Hl & Ha & Hs & He).
  { rewrite Hkeys. by rewrite reverse_Permutation. }
  { intros name info Hin. simpl. apply Dict_get_elem_of; [done|].
    by rewrite elem_of_reverse in Hin. }
  simpl in Hp, Hc, Hl, Hs, He. fold plan in Hp, Hs, He. rewrite Hkeys in Ha, Hp, Hc, Hl.
  exists es. unfold shutdown, stop_all. simpl.
  split_and!; try done.
  - by rewrite Ha, <- Htr.
  - intros c Hc'. rewrite Ha, elem_of_reverse, Htr in Hc'.
    by apply actual_start_order_started.
  - unfold plan. by rewrite shutdown_schedule_names, Hkeys.
  - by rewrite stop_loop_running.
Qed.

(** * Startup after a resolution that left components unresolved *)

Lemma resolver_errors_app l1 l2 :
  resolver_errors (l1 ++ l2) = resolver_errors l1 ++ resolver_errors l2.
Proof. apply omap_app. Qed.

Lemma check_dependencies_resolver_errors w name deps : ∀ o,
  resolver_errors (log (check_dependencies w name deps o).2) = resolver_errors (log o).
Proof.
  induction deps as [|dep deps IH]; intros o; simpl; [done|].
  destruct (Dict.get dep (processes o)) as [info|]; simpl.
  - destruct (poll w (clock o) (process info)); simpl.
    + rewrite resolver_errors_app. simpl. by rewrite app_nil_r.
    + by rewrite IH.
  - rewrite resolver_errors_app. simpl. by rewrite app_nil_r.
Qed.

Lemma start_component_resolver_errors w name o :
  resolver_errors (log (start_component w name o).2) = resolver_errors (log o).
Proof.
  unfold start_component, check_component_dependencies.
  pose proof (check_dependencies_resolver_errors w name (deps_of (components o) name) o) as Hl.
  destruct (check_dependencies w name (deps_of (components o) name) o) as [ok o1].
  simpl in Hl.
  repeat (case_match; simpl; try done);
    rewrite ?resolver_errors_app, ?Hl; simpl; by rewrite ?app_nil_r.
Qed.

Lemma optional_lines_unread (l : list string) :
  resolver_errors (OptionalNotFound <$> l) = [] ∧ startup_attempts (OptionalNotFound <$> l) = [].
Proof. by induction l. Qed.

(** The startup loop does not run the resolver: it logs no unresolved set. *)
Lemma start_loop_resolver_errors w total order : ∀ i failed o,
  resolver_errors (log (start_loop w total i order failed o).2) = resolver_errors (log o).
Proof.
  induction order as [|name rest IH]; intros i failed o; simpl; [done|].
  destruct (components o !! name) as [component|]; [|done].
  pose proof (start_component_resolver_errors w name (emit (StartingStep i total name) o)) as Hs.
  destruct (start_component w name (emit (StartingStep i total name) o)) as [ok o1].
  simpl in Hs. rewrite resolver_errors_app in Hs. simpl in Hs. rewrite app_nil_r in Hs.
  destruct ok; [by rewrite IH|]. destruct (critical component); [|by rewrite IH].
  simpl. rewrite !resolver_errors_app. simpl. by rewrite !app_nil_r.
Qed.

(** The components the startup loop announces are a prefix of its list, and
    the whole list when the loop ran through. *)
Lemma start_loop_attempts_prefix w total order : ∀ i failed o,
  ∃ att,
    startup_attempts (log (start_loop w total i order failed o).2)
    = startup_attempts (log o) ++ att
    ∧ att `prefix_of` order
    ∧ (∀ failed', (start_loop w total i order failed o).1 = LoopDone failed' → att = order).
Proof.
  induction order as [|name rest IH]; intros i failed o; simpl.
  { exists []. by rewrite app_nil_r. }
  destruct (components o !! name) as [component|].
  2:{ exists []. rewrite app_nil_r. split_and!; [done|apply prefix_nil|done]. }
  destruct (start_component_spec w name (emit (StartingStep i total name) o))
    as (_ & _ & (es & Hl & Ha & _) & _).
  destruct (start_component w name (emit (StartingStep i total name) o)) as [ok o1].
  simpl in Hl.
  assert (startup_attempts (log o1) = startup_attempts (log o) ++ [name]) as Hatt.
  { by rewrite Hl, !startup_attempts_app, Ha, app_nil_r. }
  assert (∀ f, ∃ att,
            startup_attempts (log (start_loop w total (S i) rest f o1).2)
            = startup_attempts (log o) ++ att
            ∧ att `prefix_of` name :: rest
            ∧ (∀ failed', (start_loop w total (S i) rest f o1).1 = LoopDone failed' →
                 att = name :: rest)) as Hrest.
  { intros f. destruct (IH (S i) f o1) as (att & Hlog & Hpre & Hdone).
    exists (name :: att). rewrite Hlog, Hatt, <- (assoc_L (++)).
    split_and!; [done|by apply prefix_cons|].
    intros failed' Hr. by rewrite (Hdone failed' Hr). }
  destruct ok; [apply Hrest|]. destruct (critical component); [|apply Hrest].
  exists [name]. simpl. rewrite !startup_attempts_app. simpl. rewrite !app_nil_r.
  split_and!; [done| |done]. by apply prefix_cons, prefix_nil.
Qed.

(** Over keys of the registry the startup loop raises no [KeyError]. *)
Lemma start_loop_no_key_error w total order : ∀ i failed o,
  (∀ c, c ∈ order → is_Some (components o !! c)) →
  (start_loop w total i order failed o).1 ≠ LoopKeyError.
Proof.
  induction order as [|name rest IH]; intros i failed o Hin; simpl; [done|].
  destruct (Hin name) as [component Hcomp]; [by left|]. rewrite Hcomp.
  destruct (start_component_spec w name (emit (StartingStep i total name) o)) as (Hc & _).
  destruct (start_component w name (emit (StartingStep i total name) o)) as [ok o1].
  simpl in Hc.
  assert (∀ c, c ∈ rest → is_Some (components o1 !! c)) as Hin1.
  { intros c Hc'. rewrite Hc. apply Hin. by right. }
  destruct ok; [by apply IH|]. destruct (critical component); [done | by apply IH].
Qed.

(** [start_all] is [get_startup_order], once, then the loop over the order it
    returned. *)
Lemma start_all_unfold w o :
  start_all w o
  = finish_startup
      (start_loop w (length (get_startup_order w o).1) 1 (get_startup_order w o).1 []
         (emit (StartupOrder (get_startup_order w o).1) (get_startup_order w o).2)).
Proof.
  unfold start_all. destruct (get_startup_order w o) as [order og]. simpl.
  destruct (start_loop w (length order) 1 order [] (emit (StartupOrder order) og))
    as [[failed| |] o3]; done.
Qed.

Lemma finish_startup_log r :
  ∃ es, log (finish_startup r).2 = log r.2 ++ es
    ∧ startup_attempts es = [] ∧ resolver_errors es = [].
Proof.
  destruct r as [[failed| |] o3]; simpl; [|by exists []; rewrite app_nil_r..].
  destruct failed; simpl.
  - by exists [StartupCompleted].
  - exists [FailedToStartList (s :: failed); StartupCompleted].
    by rewrite <- (assoc_L (++)).
Qed.

Lemma finish_startup_processes r : processes (finish_startup r).2 = processes r.2.
Proof. destruct r as [[failed| |] o3]; simpl; [|done..]. by destruct failed. Qed.

(** C3, as the code has it. When the non-excluded components of a registry
    (whose set of keys is iterated key by key) contain a dependency cycle, the
    resolver loop returns within as many passes as there are non-excluded
    components; [get_startup_order] raises nothing: it logs one error that
    carries the unresolved set and returns the components ordered so far.
    The ordered and the unresolved components together are exactly the
    non-excluded ones; the unresolved set is not empty, holds every component
    on a cycle, and each of its members depends on one of its members; the
    ordered components stand after their non-excluded dependencies.
    [start_all] then goes on with the returned order: it is the startup loop
    run over exactly the ordered components in the state that
    [get_startup_order] left; the loop raises no [KeyError]; the whole of
    [start_all] logs the unresolved set once and no other, so the resolver is
    not run again; the components it announces are a prefix of the ordered
    ones, all of them when the loop ran through; the instances it adds to the
    running map are a selection of the ordered ones; and no unresolved
    component is announced or started. *)
Theorem cycle_logged_and_partial_order_returned (w : World) (o : Orchestrator) :
  set_iter w (dom (components o)) ≡ₚ elements (dom (components o)) →
  (∃ c, on_cycle (components o) (active_components w (components o)) c) →
  ∃ ordered unresolved,
    resolve w (components o) = Some (ordered, Some unresolved)
    ∧ get_startup_order w o =
        (ordered, emit (CircularOrMissing unresolved)
                    (emits (OptionalNotFound <$> removed_optionals w (components o)) o))
    ∧ ordered ++ unresolved ≡ₚ active_components w (components o)
    ∧ unresolved ≠ []
    ∧ (∀ c, on_cycle (components o) (active_components w (components o)) c → c ∈ unresolved)
    ∧ (∀ c, c ∈ unresolved → ∃ d, d ∈ unresolved ∧ d ∈ deps_of (components o) c)
    ∧ (∀ c d, c ∈ ordered → d ∈ deps_of (components o) c →
         d ∈ active_components w (components o) → appears_before ordered d c)
    ∧ StartupOrder ordered ∈ log (start_all w o).2
    ∧ (let run :=
         start_loop w (length ordered) 1 ordered []
           (emit (StartupOrder ordered)
              (emit (CircularOrMissing unresolved)
                 (emits (OptionalNotFound <$> removed_optionals w (components o)) o))) in
       start_all w o = finish_startup run
       ∧ run.1 ≠ LoopKeyError
       ∧ resolver_errors (log (start_all w o).2) = resolver_errors (log o) ++ [unresolved]
       ∧ ∃ att added,
           startup_attempts (log (start_all w o).2) = startup_attempts (log o) ++ att
           ∧ att `prefix_of` ordered
           ∧ (∀ failed, run.1 = LoopDone failed → att = ordered)
           ∧ processes (start_all w o).2 = processes o ++ added
           ∧ Dict.keys added `sublist_of` ordered
           ∧ ∀ c, c ∈ unresolved → (c ∉ att) ∧ (c ∉ Dict.keys added)).
Proof.
  intros Hiter [c0 Hc0].
  destruct (resolve_spec w (components o)) as (ordered & res & Hres & Hperm & Hord & Hstuck).
  pose proof (NoDup_active w (components o) Hiter) as Hnd. rewrite <- Hperm in Hnd.
  apply NoDup_app in Hnd as (Hnd & Hdisj & _).
  pose proof (ordered_off_cycle _ _ ordered Hnd Hord) as Hoff.
  assert (∀ c, on_cycle (components o) (active_components w (components o)) c →
            c ∈ default [] res) as Hcyc.
  { intros c Hc. pose proof (on_cycle_active _ _ _ Hc) as Hact.
    rewrite <- Hperm in Hact. apply elem_of_app in Hact as [Hin|Hin]; [|done].
    by destruct (Hoff c Hin). }
  destruct res as [unresolved|]; simpl in *.
  2:{ apply Hcyc in Hc0. by apply elem_of_nil in Hc0. }
  destruct (Hstuck unresolved eq_refl) as [Hne Hsucc].
  pose proof (get_startup_order_resolve w o ordered (Some unresolved) Hres) as Hgso.
  simpl in Hgso.
  assert (get_startup_order w o =
          (ordered, emit (CircularOrMissing unresolved)
                      (emits (OptionalNotFound <$> removed_optionals w (components o)) o)))
    as Hgso'.
  { by rewrite Hgso. }
  exists ordered, unresolved. do 7 (split; [done|]). split.
  - pose proof (start_all_announces w o) as Hann. by rewrite Hgso' in Hann.
  - cbv zeta.
    set (og := emit (CircularOrMissing unresolved) _).
    set (o0 := emit (StartupOrder ordered) og).
    pose proof (start_all_unfold w o) as Hall. rewrite Hgso' in Hall. simpl in Hall.
    fold og in Hall. fold o0 in Hall.
    split; [exact Hall|]. split.
    { apply start_loop_no_key_error. intros c Hc. simpl.
      assert (c ∈ active_components w (components o)) as Hact.
      { rewrite <- Hperm. apply elem_of_app. by left. }
      apply (elem_of_active w (components o) Hiter) in Hact as (comp & -> & _). by eexists. }
    destruct (finish_startup_log (start_loop w (length ordered) 1 ordered [] o0))
      as (es & Hl & Ha & He).
    pose proof (finish_startup_processes (start_loop w (length ordered) 1 ordered [] o0)) as Hp.
    rewrite <- Hall in Hl, Hp.
    split.
    { rewrite Hl, resolver_errors_app, He, app_nil_r, start_loop_resolver_errors.
      unfold o0, og. simpl. rewrite !resolver_errors_app. simpl.
      destruct (optional_lines_unread (removed_optionals w (components o))) as [-> _].
      by rewrite !app_nil_r. }
    destruct (start_loop_attempts_prefix w (length ordered) ordered 1 [] o0)
      as (att & Hatt & Hpre & Hdone).
    destruct (start_loop_added w (length ordered) ordered 1 [] o0) as (added & Hadd & Hsub & _).
    exists att, added. split_and!; try done.
    + rewrite Hl, startup_attempts_app, Ha, app_nil_r, Hatt. f_equal.
      unfold o0, og. simpl. rewrite !startup_attempts_app. simpl.
      destruct (optional_lines_unread (removed_optionals w (components o))) as [_ ->].
      by rewrite !app_nil_r.
    + by rewrite Hp, Hadd.
    + intros c Hc. split.
      * intros Hin. apply (Hdisj c); [|done]. by eapply elem_of_prefix.
      * intros Hin. apply (Hdisj c); [|done]. by eapply elem_of_sublist.
Qed.

Lemma cycle_logged_and_partial_order_returned_witness :
  resolve calm_world cyclic_components = Some (["a"], Some ["y"; "z"; "x"])
  ∧ (let r := start_all calm_world (init cyclic_components) in
     r.1 = Some true
     ∧ Dict.keys (processes r.2) = ["a"]
     ∧ log r.2 = [CircularOrMissing ["y"; "z"; "x"]; StartupOrder ["a"];
                  StartingStep 1 1 "a"; StartingComponent "a";
                  StartedSuccessfully "a" 4; StartupCompleted])
  ∧ ∃ ordered unresolved,
    resolve calm_world cyclic_components = Some (ordered, Some unresolved)
    ∧ get_startup_order calm_world (init cyclic_components) =
        (ordered, emit (CircularOrMissing unresolved)
           (emits (OptionalNotFound <$> removed_optionals calm_world cyclic_components)
              (init cyclic_components)))
    ∧ ordered ++ unresolved ≡ₚ active_components calm_world cyclic_components
    ∧ unresolved ≠ []
    ∧ (∀ c, on_cycle cyclic_components (active_components calm_world cyclic_components) c →
         c ∈ unresolved)
    ∧ (∀ c, c ∈ unresolved → ∃ d, d ∈ unresolved ∧ d ∈ deps_of cyclic_components c)
    ∧ (∀ c d, c ∈ ordered → d ∈ deps_of cyclic_components c →
         d ∈ active_components calm_world cyclic_components → appears_before ordered d c)
    ∧ StartupOrder ordered ∈ log (start_all calm_world (init cyclic_components)).2
    ∧ (let run :=
         start_loop calm_world (length ordered) 1 ordered []
           (emit (StartupOrder ordered)
              (emit (CircularOrMissing unresolved)
                 (emits (OptionalNotFound <$> removed_optionals calm_world cyclic_components)
                    (init cyclic_components)))) in
       start_all calm_world (init cyclic_components) = finish_startup run
       ∧ run.1 ≠ LoopKeyError
       ∧ resolver_errors (log (start_all calm_world (init cyclic_components)).2)
         = resolver_errors (log (init cyclic_components)) ++ [unresolved]
       ∧ ∃ att added,
           startup_attempts (log (start_all calm_world (init cyclic_components)).2)
           = startup_attempts (log (init cyclic_components)) ++ att
           ∧ att `prefix_of` ordered
           ∧ (∀ failed, run.1 = LoopDone failed → att = ordered)
           ∧ processes (start_all calm_world (init cyclic_components)).2
             = processes (init cyclic_components) ++ added
           ∧ Dict.keys added `sublist_of` ordered
           ∧ ∀ c, c ∈ unresolved → (c ∉ att) ∧ (c ∉ Dict.keys added)).
Proof.
  split; [vm_compute; reflexivity|]. split; [vm_compute; done|].
  apply (cycle_logged_and_partial_order_returned calm_world (init cyclic_components)).
  - reflexivity.
  - exists "x". eapply tc_l; [|apply tc_once].
    + instantiate (1 := "y"). split_and!; apply (bool_decide_unpack _); vm_compute; exact I.
    + split_and!; apply (bool_decide_unpack _); vm_compute; exact I.
Defined.
